(** * Query diff: the sort-node merge differ and its facade

    A shallow embedding of
      go/libraries/doltcore/diff/querydiff/sort_node.go   (sortNodeDiffer)
      go/libraries/doltcore/diff/querydiff/query_differ.go (QueryDiffer)
    Go values of type [(T, error)] are pairs, a [panic] is a separate
    outcome, and the receiver [nd *sortNodeDiffer] is threaded explicitly. *)

From Stdlib Require Import ZArith List String Bool Lia Sorted.
Import ListNotations.
Open Scope string_scope.
Open Scope list_scope.
Open Scope Z_scope.

Set Implicit Arguments.
Set Warnings "-register-all".

(** ** Go outcomes *)

(** The [error] values the package distinguishes: [io.EOF], the package's
    own [errSkip] sentinel, and any other error. *)
Inductive error : Type :=
| EOF
| errSkip
| OtherError (msg : string).

(** A Go call either returns or panics. *)
Inductive go (A : Type) : Type :=
| Return (a : A)
| Panics (msg : string).
Arguments Return {A} a.
Arguments Panics {A} msg.

(** A [(T, error)] result whose value is ignored when the error is set. *)
Inductive res (A : Type) : Type :=
| Ok (a : A)
| Err (e : error).
Arguments Ok {A} a.
Arguments Err {A} e.

(** ** rowCmp *)

Definition rowCmp := Z.

Definition lesser : rowCmp := -1.
Definition equal : rowCmp := 0.
Definition greater : rowCmp := 1.
(** [math.MaxInt32] *)
Definition unknown : rowCmp := 2147483647.

(** The conversion [rowCmp(cmp)] of a Go [int] to [int32]: the low 32 bits,
    read as a signed number. *)
Definition rowCmp_of_int (cmp : Z) : rowCmp :=
  (cmp + 2147483648) mod 4294967296 - 2147483648.

Inductive SortOrder : Type := Ascending | Descending.
Inductive NullOrdering : Type := NullsFirst | NullsLast.

Definition msg_out_of_order : string := "query diff iterators called out of order".
Definition msg_incorrect_value : string := "incorrect value fromIter rowCmp".
Definition msg_nil_rows : string := "nil rows cannot be compared".

Section QueryDiff.

(** Non-null SQL values; a column value is [option Val], [None] being the
    Go [nil] that stands for SQL NULL. *)
Variable Val : Type.

(** [sql.Row] is a slice of values; a nil row is [None : option Row]. *)
Definition Row : Type := list (option Val).

(** [sql.Type]: only [Compare] is used. *)
Record SqlType : Type := {
  Compare : Val -> Val -> res Z
}.

(** [sql.Expression]: its type and its evaluation on a row. *)
Record Expression : Type := {
  exprType : SqlType;
  Eval : Row -> res (option Val)
}.

(** [plan.SortField] *)
Record SortField : Type := {
  Column : Expression;
  Order : SortOrder;
  NullOrder : NullOrdering
}.

(** The wrapped [sql.RowIter] of one side: the rows it yields, then
    [io.EOF] ([None]) or an error. *)
Record RowStream : Type := {
  streamRows : list Row;
  streamErr : option error
}.

(** A stream that yields the given rows and then [io.EOF]. *)
Definition rowsThenEOF (rows : list Row) : RowStream :=
  {| streamRows := rows; streamErr := None |}.

(** [plan.Sort]: its sort fields and what [RowIter] returns. *)
Record Sort : Type := {
  SortFields : list SortField;
  SortRowIter : res RowStream
}.

(** ** atomicerr and iterQueue *)

(** Modelled from the spec: [atomicerr.AtomicError] (go/store/atomicerr is
    not among the sources), the session-shared, write-once error holder:
    the first error set wins. *)
Definition AtomicError : Type := option error.

(** Modelled from the spec: [atomicerr.New], an empty holder. *)
Definition ae_New : AtomicError := None.

(** Modelled from the spec: [SetIfError], write-once. *)
Definition ae_SetIfError (ae : AtomicError) (e : option error) : AtomicError :=
  match ae with
  | Some _ => ae
  | None => e
  end.

(** Modelled from the spec: [Get], the error held, if any. *)
Definition ae_Get (ae : AtomicError) : option error := ae.

(** Modelled from the spec: [iterQueue] (iter_queue.go is not among the
    sources), the lookahead queue of section 4.1.  The background fetch is
    sequentialised: the first [maybeStart] runs it to the end of the wrapped
    stream, buffering every row and recording the stream's error, if any,
    in the shared holder. *)
Record iterQueue : Type := {
  iqIter : RowStream;
  iqBuffer : list Row;
  iqStarted : bool;
  iqClosed : bool
}.

(** Modelled from the spec: [newIterQueue], a queue that has not started. *)
Definition newIterQueue (iter : RowStream) : iterQueue :=
  {| iqIter := iter; iqBuffer := []; iqStarted := false; iqClosed := false |}.

(** Modelled from the spec: [maybeStart], idempotent; the first call fetches. *)
Definition maybeStart (q : iterQueue) (ae : AtomicError) : iterQueue * AtomicError :=
  if iqStarted q then (q, ae)
  else ({| iqIter := iqIter q;
           iqBuffer := streamRows (iqIter q);
           iqStarted := true;
           iqClosed := iqClosed q |},
        ae_SetIfError ae (streamErr (iqIter q))).

(** Modelled from the spec: [isDone], the buffer is empty and the source
    has ended. *)
Definition isDone (q : iterQueue) : bool :=
  iqStarted q && match iqBuffer q with [] => true | _ => false end.

(** Modelled from the spec: [peek], the next row, not removed (nil when
    there is none). *)
Definition peek (q : iterQueue) : option Row :=
  match iqBuffer q with
  | [] => None
  | r :: _ => Some r
  end.

(** Modelled from the spec: [pop], the next row, removed. *)
Definition pop (q : iterQueue) : option Row * iterQueue :=
  match iqBuffer q with
  | [] => (None, q)
  | r :: rest =>
      (Some r, {| iqIter := iqIter q; iqBuffer := rest;
                  iqStarted := iqStarted q; iqClosed := iqClosed q |})
  end.

(** Modelled from the spec: [close] of a queue; the differ reads the error
    from the shared holder itself. *)
Definition iq_close (q : iterQueue) : iterQueue :=
  {| iqIter := iqIter q; iqBuffer := iqBuffer q;
     iqStarted := iqStarted q; iqClosed := true |}.

(** ** sortNodeDiffer *)

Record sortNodeDiffer : Type := {
  fromChild : Sort;
  toChild : Sort;
  fromIter : iterQueue;
  toIter : iterQueue;
  lastCmp : rowCmp;
  ae : AtomicError
}.

Definition set_fromIter (nd : sortNodeDiffer) (q : iterQueue) : sortNodeDiffer :=
  {| fromChild := fromChild nd; toChild := toChild nd; fromIter := q;
     toIter := toIter nd; lastCmp := lastCmp nd; ae := ae nd |}.

Definition set_toIter (nd : sortNodeDiffer) (q : iterQueue) : sortNodeDiffer :=
  {| fromChild := fromChild nd; toChild := toChild nd; fromIter := fromIter nd;
     toIter := q; lastCmp := lastCmp nd; ae := ae nd |}.

Definition set_lastCmp (nd : sortNodeDiffer) (c : rowCmp) : sortNodeDiffer :=
  {| fromChild := fromChild nd; toChild := toChild nd; fromIter := fromIter nd;
     toIter := toIter nd; lastCmp := c; ae := ae nd |}.

Definition newSortNodeDiffer (from to : Sort) : res sortNodeDiffer :=
  match SortRowIter from with
  | Err e => Err e
  | Ok fromI =>
      match SortRowIter to with
      | Err e => Err e
      | Ok toI =>
          Ok {| fromChild := from; toChild := to;
                fromIter := newIterQueue fromI; toIter := newIterQueue toI;
                lastCmp := unknown; ae := ae_New |}
      end
  end.

(** The two [maybeStart] calls that open both pull operations. *)
Definition startBoth (nd : sortNodeDiffer) : sortNodeDiffer :=
  let (fq, a1) := maybeStart (fromIter nd) (ae nd) in
  let (tq, a2) := maybeStart (toIter nd) a1 in
  {| fromChild := fromChild nd; toChild := toChild nd; fromIter := fq;
     toIter := tq; lastCmp := lastCmp nd; ae := a2 |}.

(** *** rowCompare *)

(** The body of the loop over [nd.fromChild.SortFields]; the pair is the
    [(rowCmp, error)] that [rowCompare] returns. *)
Fixpoint compareFields (sfs : list SortField) (left right : Row)
  : rowCmp * option error :=
  match sfs with
  | [] => (0, None)
  | sf :: rest =>
      let typ := exprType (Column sf) in
      match Eval (Column sf) left with
      | Err e => (unknown, Some e)
      | Ok lv0 =>
          match Eval (Column sf) right with
          | Err e => (unknown, Some e)
          | Ok rv0 =>
              let (lv, rv) :=
                match Order sf with
                | Descending => (rv0, lv0)
                | Ascending => (lv0, rv0)
                end in
              match lv, rv with
              | None, None => compareFields rest left right
              | None, Some _ =>
                  match NullOrder sf with
                  | NullsFirst => (lesser, None)
                  | NullsLast => (greater, None)
                  end
              | Some _, None =>
                  match NullOrder sf with
                  | NullsFirst => (greater, None)
                  | NullsLast => (lesser, None)
                  end
              | Some l, Some r =>
                  match Compare typ l r with
                  | Err e => (0, Some e)
                  | Ok cmp =>
                      if cmp =? 0 then compareFields rest left right
                      else (rowCmp_of_int cmp, None)
                  end
              end
          end
      end
  end.

Definition rowCompare (nd : sortNodeDiffer) (left right : option Row)
  : go (rowCmp * option error) :=
  match left, right with
  | Some l, Some r => Return (compareFields (SortFields (fromChild nd)) l r)
  | _, _ => Panics msg_nil_rows
  end.

(** *** nextFromRow and nextToRow *)

Definition pull : Type := go (option Row * option error).

Definition popFrom (nd : sortNodeDiffer) : pull * sortNodeDiffer :=
  let (r, q) := pop (fromIter nd) in (Return (r, None), set_fromIter nd q).

Definition popTo (nd : sortNodeDiffer) : pull * sortNodeDiffer :=
  let (r, q) := pop (toIter nd) in (Return (r, None), set_toIter nd q).

Definition nextFromRow (nd0 : sortNodeDiffer) : pull * sortNodeDiffer :=
  let nd := startBoth nd0 in
  if isDone (fromIter nd) then (Return (None, Some EOF), nd)
  else if isDone (toIter nd) then popFrom nd
  else if negb (lastCmp nd =? unknown) then (Panics msg_out_of_order, nd)
  else
    match rowCompare nd (peek (fromIter nd)) (peek (toIter nd)) with
    | Panics m => (Panics m, nd)
    | Return (c, err) =>
        let nd1 := set_lastCmp nd c in
        match err with
        | Some e => (Return (None, Some e), nd1)
        | None =>
            if c =? lesser then popFrom nd1
            else if c =? equal then popFrom nd1
            else if c =? greater then (Return (None, Some errSkip), nd1)
            else (Panics msg_incorrect_value, nd1)
        end
    end.

Definition nextToRow (nd0 : sortNodeDiffer) : pull * sortNodeDiffer :=
  let nd := startBoth nd0 in
  if isDone (toIter nd) then (Return (None, Some EOF), nd)
  else if isDone (fromIter nd) && (lastCmp nd =? unknown) then popTo nd
  else if lastCmp nd =? unknown then (Panics msg_out_of_order, nd)
  else
    let cmp := lastCmp nd in
    let nd1 := set_lastCmp nd unknown in
    if cmp =? lesser then (Return (None, Some errSkip), nd1)
    else if cmp =? equal then popTo nd1
    else if cmp =? greater then popTo nd1
    else (Panics msg_incorrect_value, nd1).

(** *** The synthetic nodes *)

(** [rowIterWrapper]: a pair of closures; what they close over (the
    [*sortNodeDiffer]) is the world [W] they run in. *)
Record rowIterWrapper (W : Type) : Type := {
  next : W -> pull * W;
  close : W -> option error * W
}.

Definition wNext {W} (w : rowIterWrapper W) : W -> pull * W := next w.
Definition wClose {W} (w : rowIterWrapper W) : W -> option error * W := close w.

(** [sqlNodeWrapper]: the replaced node and the iterator [RowIter] returns. *)
Record sqlNodeWrapper (W : Type) : Type := {
  wrappedNode : Sort;
  iter : rowIterWrapper W
}.

Definition nd_close (nd : sortNodeDiffer) : option error * sortNodeDiffer :=
  let nd1 := set_fromIter nd (iq_close (fromIter nd)) in
  let nd2 := set_toIter nd1 (iq_close (toIter nd1)) in
  (ae_Get (ae nd2), nd2).

Definition makeFromNode (nd : sortNodeDiffer) : sqlNodeWrapper sortNodeDiffer :=
  {| wrappedNode := fromChild nd;
     iter := {| next := nextFromRow;
                close := fun w => (None, w) |} |}.

Definition makeToNode (nd : sortNodeDiffer) : sqlNodeWrapper sortNodeDiffer :=
  {| wrappedNode := toChild nd;
     iter := {| next := nextToRow;
                close := nd_close |} |}.

(** ** QueryDiffer *)

(** [sql.Schema], and [sql.Row.Equals] of the query engine (the receiver
    and the argument may be nil rows). *)
Variable Schema : Type.
Variable RowEquals : option Row -> option Row -> Schema -> res bool.

Record QueryDiffer (W : Type) : Type := {
  sch : Schema;
  qdFromIter : rowIterWrapper W;
  qdToIter : rowIterWrapper W
}.

Definition diffResult : Type := go (option Row * option Row * option error).

(** The [for] loop of [NextDiff]; [fromEOF] is declared outside the loop and
    so carried from one iteration to the next.  [None] when [fuel]
    iterations did not reach a [return]. *)
Fixpoint NextDiffLoop {W} (fuel : nat) (qd : QueryDiffer W) (fromEOF : bool) (w : W)
  : option diffResult * W :=
  match fuel with
  | O => (None, w)
  | S fuel' =>
      let (p1, w1) := wNext (qdFromIter qd) w in
      match p1 with
      | Panics m => (Some (Panics m), w1)
      | Return (from, err1) =>
          let fromEOF1 := match err1 with Some EOF => true | _ => fromEOF end in
          match err1 with
          | Some (OtherError m) => (Some (Return (None, None, err1)), w1)
          | _ =>
              let (p2, w2) := wNext (qdToIter qd) w1 in
              match p2 with
              | Panics m => (Some (Panics m), w2)
              | Return (to, err2) =>
                  match err2 with
                  | Some (OtherError m) => (Some (Return (None, None, err2)), w2)
                  | _ =>
                      if fromEOF1 && match err2 with Some EOF => true | _ => false end
                      then (Some (Return (None, None, Some EOF)), w2)
                      else
                        match RowEquals from to (sch qd) with
                        | Err e => (Some (Return (None, None, Some e)), w2)
                        | Ok true => NextDiffLoop fuel' qd fromEOF1 w2
                        | Ok false => (Some (Return (from, to, None)), w2)
                        end
                  end
              end
          end
      end
  end.

Definition NextDiff {W} (fuel : nat) (qd : QueryDiffer W) (w : W)
  : option diffResult * W :=
  NextDiffLoop fuel qd false w.

Definition QueryDiffer_Close {W} (qd : QueryDiffer W) (w : W) : option error * W :=
  let (fromErr, w1) := wClose (qdFromIter qd) w in
  let (toErr, w2) := wClose (qdToIter qd) w1 in
  match fromErr with
  | Some e => (Some e, w2)
  | None => (toErr, w2)
  end.

(** [k] calls of [NextDiff] one after the other, with their results. *)
Fixpoint NextDiffs {W} (fuel k : nat) (qd : QueryDiffer W) (w : W)
  : list (option diffResult) * W :=
  match k with
  | O => ([], w)
  | S k' =>
      let (r, w1) := NextDiff fuel qd w in
      let (rs, w2) := NextDiffs fuel k' qd w1 in
      (r :: rs, w2)
  end.

(** A from-row reported with the absent marker on the to-side. *)
Definition removedRow (r : Row) : option diffResult :=
  Some (Return (Some r, None, None)).

(** The [QueryDiffer] of [MakeQueryDiffer] when the Sort nodes are the
    plan roots: [RowIter] of a [sqlNodeWrapper] returns its [iter]. *)
Definition sortQueryDiffer (s : Schema) (nd : sortNodeDiffer)
  : QueryDiffer sortNodeDiffer :=
  {| sch := s;
     qdFromIter := iter (makeFromNode nd);
     qdToIter := iter (makeToNode nd) |}.

(** ** The full alternating call sequence *)

Inductive popped : Type :=
| FromRow (r : Row)
| ToRow (r : Row).

Definition poppedRow (p : popped) : Row :=
  match p with FromRow r => r | ToRow r => r end.

Fixpoint fromRowsOf (tr : list popped) : list Row :=
  match tr with
  | [] => []
  | FromRow r :: rest => r :: fromRowsOf rest
  | ToRow _ :: rest => fromRowsOf rest
  end.

Fixpoint toRowsOf (tr : list popped) : list Row :=
  match tr with
  | [] => []
  | FromRow _ :: rest => toRowsOf rest
  | ToRow r :: rest => r :: toRowsOf rest
  end.

Definition fromEvent (r : option Row) : list popped :=
  match r with Some x => [FromRow x] | None => [] end.

Definition toEvent (r : option Row) : list popped :=
  match r with Some x => [ToRow x] | None => [] end.

(** [nextFromRow], then [nextToRow], again and again until both report
    [io.EOF] in the same round; the rows returned, in call order.  [None]
    when a call panics or returns a genuine error, or when [fuel] rounds
    did not reach the double end-of-stream. *)
Fixpoint pullAll (fuel : nat) (nd : sortNodeDiffer)
  : option (list popped) * sortNodeDiffer :=
  match fuel with
  | O => (None, nd)
  | S fuel' =>
      let (p1, nd1) := nextFromRow nd in
      let (p2, nd2) := nextToRow nd1 in
      match p1, p2 with
      | Return (_, Some (OtherError _)), _ => (None, nd2)
      | _, Return (_, Some (OtherError _)) => (None, nd2)
      | Return (_, Some EOF), Return (_, Some EOF) => (Some [], nd2)
      | Return (r1, _), Return (r2, _) =>
          let (rest, nd3) := pullAll fuel' nd2 in
          (option_map (fun tl => fromEvent r1 ++ toEvent r2 ++ tl) rest, nd3)
      | _, _ => (None, nd2)
      end
  end.

(** The order the sort key induces on rows: [left] is not after [right]. *)
Definition keyLe (sfs : list SortField) (left right : Row) : bool :=
  match compareFields sfs left right with
  | (c, None) => (c =? lesser) || (c =? equal)
  | (_, Some _) => false
  end.

(** ** Plan validation *)

(** A query plan as validation sees it: a [*plan.Sort], or any other node
    with what its [Children()] returns ([None] for a nil slice). *)
Inductive Node : Type :=
| SortNode (s : Sort)
| PlanNode (cc : option (list Node)).

Definition msg_no_sort : string := "query plan does not contain a sort node".
Definition msg_index : string := "index out of range".

Fixpoint recursiveValidateQueryPlan (p : Node) : go (option error) :=
  match p with
  | SortNode _ => Return None
  | PlanNode cc =>
      match cc with
      | None => Return (Some (OtherError msg_no_sort))
      | Some [] => Panics msg_index
      | Some (c0 :: _) => recursiveValidateQueryPlan c0
      end
  end.

(** Both queues have started. *)
Definition running (nd : sortNodeDiffer) : Prop :=
  iqStarted (fromIter nd) = true /\ iqStarted (toIter nd) = true.

(** What a pull operation observes after its two [maybeStart] calls. *)
Definition fromExhausted (nd : sortNodeDiffer) : bool := isDone (fromIter (startBoth nd)).
Definition toExhausted (nd : sortNodeDiffer) : bool := isDone (toIter (startBoth nd)).

(** The comparison of the two peeks that [nextFromRow] makes. *)
Definition comparePeeks (nd : sortNodeDiffer) : go (rowCmp * option error) :=
  rowCompare (startBoth nd) (peek (fromIter (startBoth nd))) (peek (toIter (startBoth nd))).

(** ** Specifications of [nextFromRow]

    [nextFromRow_claimed] is the behaviour in the words of section 4.2 with
    the protocol guard left out; [nextFromRow_spec] is the case analysis
    with the guard and the failure cases.  Both relate the started differ,
    the outcome of the call and the differ it leaves. *)
Inductive nextFromRow_claimed (nd : sortNodeDiffer) : pull -> sortNodeDiffer -> Prop :=
| claimed_exhausted :
    isDone (fromIter nd) = true ->
    nextFromRow_claimed nd (Return (None, Some EOF)) nd
| claimed_to_exhausted :
    isDone (fromIter nd) = false -> isDone (toIter nd) = true ->
    nextFromRow_claimed nd (Return (peek (fromIter nd), None))
                        (set_fromIter nd (snd (pop (fromIter nd))))
| claimed_lesser_equal c :
    isDone (fromIter nd) = false -> isDone (toIter nd) = false ->
    rowCompare nd (peek (fromIter nd)) (peek (toIter nd)) = Return (c, None) ->
    c = lesser \/ c = equal ->
    nextFromRow_claimed nd (Return (peek (fromIter nd), None))
                        (set_fromIter (set_lastCmp nd c) (snd (pop (fromIter nd))))
| claimed_greater :
    isDone (fromIter nd) = false -> isDone (toIter nd) = false ->
    rowCompare nd (peek (fromIter nd)) (peek (toIter nd)) = Return (greater, None) ->
    nextFromRow_claimed nd (Return (None, Some errSkip)) (set_lastCmp nd greater).

Inductive nextFromRow_spec (nd : sortNodeDiffer) : pull -> sortNodeDiffer -> Prop :=
| spec_exhausted :
    isDone (fromIter nd) = true ->
    nextFromRow_spec nd (Return (None, Some EOF)) nd
| spec_to_exhausted :
    isDone (fromIter nd) = false -> isDone (toIter nd) = true ->
    nextFromRow_spec nd (Return (peek (fromIter nd), None))
                     (set_fromIter nd (snd (pop (fromIter nd))))
| spec_out_of_order :
    isDone (fromIter nd) = false -> isDone (toIter nd) = false ->
    lastCmp nd <> unknown ->
    nextFromRow_spec nd (Panics msg_out_of_order) nd
| spec_compare_failed c e :
    isDone (fromIter nd) = false -> isDone (toIter nd) = false ->
    lastCmp nd = unknown ->
    rowCompare nd (peek (fromIter nd)) (peek (toIter nd)) = Return (c, Some e) ->
    nextFromRow_spec nd (Return (None, Some e)) (set_lastCmp nd c)
| spec_lesser_equal c :
    isDone (fromIter nd) = false -> isDone (toIter nd) = false ->
    lastCmp nd = unknown ->
    rowCompare nd (peek (fromIter nd)) (peek (toIter nd)) = Return (c, None) ->
    c = lesser \/ c = equal ->
    nextFromRow_spec nd (Return (peek (fromIter nd), None))
                     (set_fromIter (set_lastCmp nd c) (snd (pop (fromIter nd))))
| spec_greater :
    isDone (fromIter nd) = false -> isDone (toIter nd) = false ->
    lastCmp nd = unknown ->
    rowCompare nd (peek (fromIter nd)) (peek (toIter nd)) = Return (greater, None) ->
    nextFromRow_spec nd (Return (None, Some errSkip)) (set_lastCmp nd greater)
| spec_bad_value c :
    isDone (fromIter nd) = false -> isDone (toIter nd) = false ->
    lastCmp nd = unknown ->
    rowCompare nd (peek (fromIter nd)) (peek (toIter nd)) = Return (c, None) ->
    c <> lesser -> c <> equal -> c <> greater ->
    nextFromRow_spec nd (Panics msg_incorrect_value) (set_lastCmp nd c).

(** A sort field gives no signal on two rows: both values are null, or the
    comparator (on the operands as the direction orders them) returns 0. *)
Definition noSignal (left right : Row) (sf : SortField) : Prop :=
  exists lv rv,
    Eval (Column sf) left = Ok lv /\ Eval (Column sf) right = Ok rv /\
    match lv, rv with
    | None, None => True
    | Some a, Some b =>
        match Order sf with
        | Ascending => Compare (exprType (Column sf)) a b = Ok 0
        | Descending => Compare (exprType (Column sf)) b a = Ok 0
        end
    | _, _ => False
    end.

(** The two readings of "a sort operator is reachable from the root":
    along first children, as the validation walks, and along nodes that
    have a single child, as section 4.3 words it. *)
Inductive sortOnFirstChildChain : Node -> Prop :=
| first_here s : sortOnFirstChildChain (SortNode s)
| first_below c0 rest :
    sortOnFirstChildChain c0 ->
    sortOnFirstChildChain (PlanNode (Some (c0 :: rest))).

Inductive sortOnSingleChildChain : Node -> Prop :=
| single_here s : sortOnSingleChildChain (SortNode s)
| single_below c0 :
    sortOnSingleChildChain c0 ->
    sortOnSingleChildChain (PlanNode (Some [c0])).


(** ** The merge the call sequence performs *)

(** The parts of a differ that the pull operations never change. *)
Record frame : Type := {
  frFrom : Sort;
  frTo : Sort;
  frFromIter : RowStream;
  frToIter : RowStream;
  frFromClosed : bool;
  frToClosed : bool;
  frErr : AtomicError
}.

(** A started differ: its frame, the rows still buffered on each side and
    the comparison state. *)
Definition differAt (e : frame) (fs ts : list Row) (c : rowCmp) : sortNodeDiffer :=
  {| fromChild := frFrom e; toChild := frTo e;
     fromIter := {| iqIter := frFromIter e; iqBuffer := fs;
                    iqStarted := true; iqClosed := frFromClosed e |};
     toIter := {| iqIter := frToIter e; iqBuffer := ts;
                  iqStarted := true; iqClosed := frToClosed e |};
     lastCmp := c; ae := frErr e |}.

Definition frameOf (nd : sortNodeDiffer) : frame :=
  {| frFrom := fromChild nd; frTo := toChild nd;
     frFromIter := iqIter (fromIter nd); frToIter := iqIter (toIter nd);
     frFromClosed := iqClosed (fromIter nd); frToClosed := iqClosed (toIter nd);
     frErr := ae nd |}.

(** The two-way merge by sort key, on the buffered rows alone: what
    [pullAll] is shown to compute. *)
Fixpoint mergeTrace (sfs : list SortField) (n : nat) (fs ts : list Row)
  : option (list popped) :=
  match n with
  | O => None
  | S n' =>
      match fs, ts with
      | [], [] => Some []
      | f :: fs', [] => option_map (cons (FromRow f)) (mergeTrace sfs n' fs' [])
      | [], t :: ts' => option_map (cons (ToRow t)) (mergeTrace sfs n' [] ts')
      | f :: fs', t :: ts' =>
          match compareFields sfs f t with
          | (c, None) =>
              if c =? lesser
              then option_map (cons (FromRow f)) (mergeTrace sfs n' fs' ts)
              else if c =? equal
              then option_map (fun tl => FromRow f :: ToRow t :: tl)
                              (mergeTrace sfs n' fs' ts')
              else if c =? greater
              then option_map (cons (ToRow t)) (mergeTrace sfs n' fs ts')
              else None
          | (_, Some _) => None
          end
      end
  end.

(** The sort key orders the rows of [U]: any two compare, without error, to
    Lesser, Equal or Greater; comparing them the other way round gives the
    opposite result; and "not after" is transitive. *)
Definition keyOrderOn (sfs : list SortField) (U : list Row) : Prop :=
  (forall a b, In a U -> In b U ->
     exists c, compareFields sfs a b = (c, None) /\
               compareFields sfs b a = (- c, None) /\
               (c = lesser \/ c = equal \/ c = greater)) /\
  (forall a b c, In a U -> In b U -> In c U ->
     keyLe sfs a b = true -> keyLe sfs b c = true -> keyLe sfs a c = true).

Definition sortedByKey (sfs : list SortField) (rows : list Row) : Prop :=
  StronglySorted (fun a b => keyLe sfs a b = true) rows.

(** The same merge as a relation between the two buffers and the rows
    returned, one constructor per kind of round. *)
Inductive merges (sfs : list SortField) : list Row -> list Row -> list popped -> Prop :=
| merges_done : merges sfs [] [] []
| merges_from_only f fs tr :
    merges sfs fs [] tr -> merges sfs (f :: fs) [] (FromRow f :: tr)
| merges_to_only t ts tr :
    merges sfs [] ts tr -> merges sfs [] (t :: ts) (ToRow t :: tr)
| merges_lesser f fs t ts tr :
    compareFields sfs f t = (lesser, None) ->
    merges sfs fs (t :: ts) tr ->
    merges sfs (f :: fs) (t :: ts) (FromRow f :: tr)
| merges_equal f fs t ts tr :
    compareFields sfs f t = (equal, None) ->
    merges sfs fs ts tr ->
    merges sfs (f :: fs) (t :: ts) (FromRow f :: ToRow t :: tr)
| merges_greater f fs t ts tr :
    compareFields sfs f t = (greater, None) ->
    merges sfs (f :: fs) ts tr ->
    merges sfs (f :: fs) (t :: ts) (ToRow t :: tr).

(** [keyOrderOn] as a check that runs on a given list of rows. *)
Definition validCmp (c : rowCmp) : bool :=
  (c =? lesser) || (c =? equal) || (c =? greater).

Definition comparesBothWays (sfs : list SortField) (a b : Row) : bool :=
  match compareFields sfs a b, compareFields sfs b a with
  | (c, None), (c', None) => (c' =? - c) && validCmp c
  | _, _ => false
  end.

Definition keyOrderOnb (sfs : list SortField) (U : list Row) : bool :=
  forallb (fun a => forallb (fun b => comparesBothWays sfs a b) U) U &&
  forallb (fun a => forallb (fun b => forallb (fun c =>
    implb (keyLe sfs a b && keyLe sfs b c) (keyLe sfs a c)) U) U) U.

End QueryDiff.

Arguments SortNode {Val} s.
Arguments PlanNode {Val} cc.
Arguments FromRow {Val} r.
Arguments ToRow {Val} r.
Arguments poppedRow {Val} p.

(** ** Further definitions for the pull operations *)

Section PullFacts.

Variable Val : Type.

(** The rows a pull hands to its caller: one when it returns a row. *)
Definition returnedRows (p : pull Val) : list (Row Val) :=
  match p with
  | Return (Some r, _) => [r]
  | _ => []
  end.

(** The values [lastCmp] is meant to hold. *)
Definition knownCmp (c : rowCmp) : Prop :=
  c = lesser \/ c = equal \/ c = greater \/ c = unknown.

(** Every column comparator of the sort key returns -1, 0 or 1. *)
Definition comparatorsInRange (sfs : list (SortField Val)) : Prop :=
  forall sf a b c,
    In sf sfs -> Compare (exprType (Column sf)) a b = Ok c ->
    c = -1 \/ c = 0 \/ c = 1.

(** Every column comparator, asked the other way round, returns the
    opposite number. *)
Definition comparatorsAntisymmetric (sfs : list (SortField Val)) : Prop :=
  forall sf a b c,
    In sf sfs -> Compare (exprType (Column sf)) a b = Ok c ->
    Compare (exprType (Column sf)) b a = Ok (- c).

(** Two rows on which every sort column evaluates alike. *)
Definition sameKey (sfs : list (SortField Val)) (r r' : Row Val) : Prop :=
  forall sf, In sf sfs -> Eval (Column sf) r = Eval (Column sf) r'.

(** Every column comparator is transitive on "not after", strictly when
    one of the two steps is strict: from [x] not after [y] and [y] not
    after [z] it answers [x] against [z] with the smaller of the two
    answers. *)
Definition comparatorsTransitive (sfs : list (SortField Val)) : Prop :=
  forall sf x y z p q,
    In sf sfs ->
    Compare (exprType (Column sf)) x y = Ok p ->
    Compare (exprType (Column sf)) y z = Ok q ->
    p <= 0 -> q <= 0 ->
    Compare (exprType (Column sf)) x z = Ok (Z.min p q).

(** What one sort column says about two evaluated values: the body of the
    loop of [rowCompare] after the two [Eval] calls, 0 standing for
    [continue]. *)
Definition colSignal (sf : SortField Val) (lv0 rv0 : option Val) : res Z :=
  let (lv, rv) :=
    match Order sf with
    | Descending => (rv0, lv0)
    | Ascending => (lv0, rv0)
    end in
  match lv, rv with
  | None, None => Ok 0
  | None, Some _ =>
      match NullOrder sf with NullsFirst => Ok (-1) | NullsLast => Ok 1 end
  | Some _, None =>
      match NullOrder sf with NullsFirst => Ok 1 | NullsLast => Ok (-1) end
  | Some l, Some r => Compare (exprType (Column sf)) l r
  end.

(** An error of the key comparison is an ordinary error, not one of the
    sentinels [io.EOF] and [errSkip]. *)
Definition ordinaryCompareErrors (sfs : list (SortField Val)) : Prop :=
  forall l r c e, compareFields sfs l r = (c, Some e) -> exists m, e = OtherError m.

End PullFacts.

(** ** Further definitions for the facade *)

Section FacadeFacts.

Variable Val : Type.
Variable Schema : Type.
Variable RowEquals : option (Row Val) -> option (Row Val) -> Schema -> res bool.

(** One iteration of the [for] loop of [NextDiff]: the result it returns,
    or [None] when it reaches [continue]; the state it leaves; and
    [fromEOF] as the next iteration finds it. *)
Definition NextDiffIter {W} (qd : QueryDiffer Val Schema W) (fromEOF : bool) (w : W)
  : option (diffResult Val) * W * bool :=
  let (p1, w1) := wNext (qdFromIter qd) w in
  match p1 with
  | Panics m => (Some (Panics m), w1, fromEOF)
  | Return (from, err1) =>
      let fromEOF1 := match err1 with Some EOF => true | _ => fromEOF end in
      match err1 with
      | Some (OtherError m) => (Some (Return (None, None, err1)), w1, fromEOF1)
      | _ =>
          let (p2, w2) := wNext (qdToIter qd) w1 in
          match p2 with
          | Panics m => (Some (Panics m), w2, fromEOF1)
          | Return (to, err2) =>
              match err2 with
              | Some (OtherError m) => (Some (Return (None, None, err2)), w2, fromEOF1)
              | _ =>
                  if fromEOF1 && match err2 with Some EOF => true | _ => false end
                  then (Some (Return (None, None, Some EOF)), w2, fromEOF1)
                  else
                    match RowEquals from to (sch qd) with
                    | Err e => (Some (Return (None, None, Some e)), w2, fromEOF1)
                    | Ok true => (None, w2, fromEOF1)
                    | Ok false => (Some (Return (from, to, None)), w2, fromEOF1)
                    end
              end
          end
      end
  end.

(** A caller's loop: [NextDiff] again and again, keeping the pairs, until
    it reports [io.EOF].  [None] when a call panics, returns another error,
    or runs out of [fuel], or when [calls] calls did not reach the end. *)
Fixpoint collectDiffs {W} (fuel calls : nat) (qd : QueryDiffer Val Schema W) (w : W)
  : option (list (option (Row Val) * option (Row Val))) * W :=
  match calls with
  | O => (None, w)
  | S k =>
      match NextDiff RowEquals fuel qd w with
      | (Some (Return (from, to, None)), w1) =>
          let (rest, w2) := collectDiffs fuel k qd w1 in
          (option_map (cons (from, to)) rest, w2)
      | (Some (Return (_, _, Some EOF)), w1) => (Some [], w1)
      | (_, w1) => (None, w1)
      end
  end.




End FacadeFacts.

(** ** Plan validation: the third outcome *)

Section ValidationFacts.

Variable Val : Type.

(** The first-child chain ends at a node whose [Children()] is an empty,
    non-nil slice. *)
Inductive firstChildChainEndsAtEmpty : Node Val -> Prop :=
| empty_here : firstChildChainEndsAtEmpty (PlanNode (Some []))
| empty_below c0 rest :
    firstChildChainEndsAtEmpty c0 ->
    firstChildChainEndsAtEmpty (PlanNode (Some (c0 :: rest))).

End ValidationFacts.

(** * Tuples (go/store/types/tuple.go)

    A tuple is a kind tag, a field count and the encoded fields.  The
    decoder that reads the encoding is not part of tuple.go: its state and
    the operations tuple.go calls on it are parameters here. *)
Module Tuples.

Section WithDecoder.

(** [Value], [valueDecoder] (its state), and the decoder operations used:
    [readValue] and [skipValue] advance the decoder by one field. *)
Variable Value : Type.
Variable Dec : Type.
Variable readValue : Dec -> Value * Dec.
Variable skipValue : Dec -> Dec.

(** [Tuple], and [decoderSkipToFields]: a decoder placed on the first field
    and the field count. *)
Variable Tuple : Type.
Variable decoderSkipToFields : Tuple -> Dec * Z.

(** [uint64] arithmetic. *)
Definition u64 (z : Z) : Z := z mod 18446744073709551616.

Record TupleIterator : Type := {
  dec : Dec;
  count : Z;
  pos : Z
}.

(** [Next]: the position and the value read there, or [(count, nil)]. *)
Definition Next (itr : TupleIterator) : (Z * option Value) * TupleIterator :=
  if pos itr <? count itr then
    let valPos := pos itr in
    let (val, d) := readValue (dec itr) in
    ((valPos, Some val), {| dec := d; count := count itr; pos := u64 (pos itr + 1) |})
  else ((count itr, None), itr).

Definition HasMore (itr : TupleIterator) : bool := pos itr <? count itr.
Definition Len (itr : TupleIterator) : Z := count itr.
Definition Pos (itr : TupleIterator) : Z := pos itr.

(** The loop [for i := uint64(0); i < n; i++ { dec.skipValue(...) }]. *)
Fixpoint skipValues (n : nat) (d : Dec) : Dec :=
  match n with
  | O => d
  | S k => skipValues k (skipValue d)
  end.

Definition IteratorAt (t : Tuple) (p : Z) : TupleIterator :=
  let (d, c) := decoderSkipToFields t in
  {| dec := skipValues (Z.to_nat p) d; count := c; pos := p |}.

Definition Iterator (t : Tuple) : TupleIterator := IteratorAt t 0.

Definition TupleLen (t : Tuple) : Z := snd (decoderSkipToFields t).

Definition Empty (t : Tuple) : bool := TupleLen t =? 0.

(** [Get]: the value of field [n]; [d.Chk.Fail] when [n] is out of range. *)
Inductive getResult : Type :=
| Got (v : Value)
| IndexOutOfRange (n : Z).

Definition Get (t : Tuple) (n : Z) : getResult :=
  let (d, c) := decoderSkipToFields t in
  if n >=? c then IndexOutOfRange n
  else Got (fst (readValue (skipValues (Z.to_nat n) d))).

(** [IterFields]: the callback is a closure; [S] is what it closes over.
    [None] when [fuel] iterations did not end the loop. *)
Section IterFields.

Variable S : Type.
Variable cb : S -> Z -> option Value -> bool * S.

Fixpoint iterFieldsLoop (fuel : nat) (itr : TupleIterator) (s : S) : option S :=
  match fuel with
  | O => None
  | Datatypes.S fuel' =>
      if HasMore itr then
        let '((i, curr), itr') := Next itr in
        let (stop, s') := cb s i curr in
        if stop then Some s' else iterFieldsLoop fuel' itr' s'
      else Some s
  end.

Definition IterFields (fuel : nat) (t : Tuple) (s : S) : option S :=
  iterFieldsLoop fuel (Iterator t) s.

(** Calling the callback on a list of indexed values until it says stop. *)
Fixpoint visitUntilStop (fields : list (Z * Value)) (s : S) : S :=
  match fields with
  | [] => s
  | (i, v) :: rest =>
      let (stop, s') := cb s i (Some v) in
      if stop then s' else visitUntilStop rest s'
  end.

End IterFields.

(** [Less]: [Equals] and [Less] of values, the kind of a value that is not
    a tuple, and [TupleKind]. *)
Variable valueEquals : Value -> Value -> bool.
Variable valueLess : Value -> Value -> bool.
Variable TupleKind : Z.

Definition optEquals (a b : option Value) : bool :=
  match a, b with
  | Some x, Some y => valueEquals x y
  | None, None => true
  | _, _ => false
  end.

Definition optLess (a b : option Value) : bool :=
  match a, b with
  | Some x, Some y => valueLess x y
  | _, _ => false
  end.

Fixpoint lessLoop (fuel : nat) (itr otherItr : TupleIterator) : option bool :=
  match fuel with
  | O => None
  | Datatypes.S fuel' =>
      if HasMore itr then
        if negb (HasMore otherItr) then Some false
        else
          let '((_, currVal), itr') := Next itr in
          let '((_, currOthVal), otherItr') := Next otherItr in
          if negb (optEquals currVal currOthVal)
          then Some (optLess currVal currOthVal)
          else lessLoop fuel' itr' otherItr'
      else Some (Len itr <? Len otherItr)
  end.

(** [other] is a tuple, or a value of another kind. *)
Definition Less (fuel : nat) (t : Tuple) (other : Tuple + Z) : option bool :=
  match other with
  | inl otherTuple => lessLoop fuel (Iterator t) (Iterator otherTuple)
  | inr kind => Some (TupleKind <? kind)
  end.

(** The values an iterator has still to give: [n] reads of the decoder. *)
Fixpoint readValues (n : nat) (d : Dec) : list Value :=
  match n with
  | O => []
  | Datatypes.S k => let (v, d') := readValue d in v :: readValues k d'
  end.

Definition remaining (itr : TupleIterator) : list Value :=
  readValues (Z.to_nat (count itr - pos itr)) (dec itr).

Definition fieldsOf (t : Tuple) : list Value := remaining (Iterator t).

(** The lexicographic order on lists of values that [Less] computes. *)
Fixpoint lexLess (xs ys : list Value) : bool :=
  match xs, ys with
  | [], [] => false
  | [], _ :: _ => true
  | _ :: _, [] => false
  | x :: xs', y :: ys' =>
      if valueEquals x y then lexLess xs' ys' else valueLess x y
  end.

(** [k] calls of [Next], with what they return. *)
Fixpoint nexts (k : nat) (itr : TupleIterator)
  : list (Z * option Value) * TupleIterator :=
  match k with
  | O => ([], itr)
  | Datatypes.S k' =>
      let (r, itr') := Next itr in
      let (rs, itr'') := nexts k' itr' in
      (r :: rs, itr'')
  end.

(** The positions [p], [p+1], ... paired with the values of a list. *)
Fixpoint indexedFrom (p : Z) (vs : list Value) : list (Z * Value) :=
  match vs with
  | [] => []
  | v :: rest => (p, v) :: indexedFrom (p + 1) rest
  end.

(** A well-formed iterator: [uint64] fields with [pos <= count]. *)
Definition wellFormed (itr : TupleIterator) : Prop :=
  0 <= pos itr <= count itr /\ count itr < 18446744073709551616.

End WithDecoder.

End Tuples.

(** ** A concrete engine: integer and text columns

    Enough of the query engine to run the differ on rows: values, the two
    column types with their comparators, field access by position, and row
    equality under a schema. *)
Module Engine.

Inductive value : Type :=
| VInt (z : Z)
| VText (s : string).

Definition cmp_of (c : comparison) : Z :=
  match c with Lt => -1 | Eq => 0 | Gt => 1 end.

Definition Int64 : SqlType value :=
  {| Compare := fun a b =>
       match a, b with
       | VInt x, VInt y => Ok (cmp_of (x ?= y))
       | _, _ => Err (OtherError "value not convertible to int64")
       end |}.

Definition Text : SqlType value :=
  {| Compare := fun a b =>
       match a, b with
       | VText x, VText y => Ok (cmp_of (String.compare x y))
       | _, _ => Err (OtherError "value not convertible to text")
       end |}.

(** [expression.GetField]: the value at a position of the row. *)
Definition GetField (i : nat) (t : SqlType value) : Expression value :=
  {| exprType := t;
     Eval := fun r =>
       match nth_error r i with
       | Some v => Ok v
       | None => Err (OtherError "field index out of bounds")
       end |}.

Definition Schema : Type := list (SqlType value).

Definition len (r : option (Row value)) : nat :=
  match r with Some l => List.length l | None => O end.

Fixpoint columnsEqual (l r : Row value) (s : Schema) : res bool :=
  match l, r, s with
  | a :: l', b :: r', t :: s' =>
      match a, b with
      | None, None => columnsEqual l' r' s'
      | Some x, Some y =>
          match Compare t x y with
          | Err e => Err e
          | Ok c => if c =? 0 then columnsEqual l' r' s' else Ok false
          end
      | _, _ => Ok false
      end
  | _, _, _ => Ok true
  end.

(** [sql.Row.Equals]: rows of different lengths, or of a length other than
    the schema's, are unequal; otherwise columns are compared by type. *)
Definition RowEquals (l r : option (Row value)) (s : Schema) : res bool :=
  if negb (Nat.eqb (len r) (len l)) || negb (Nat.eqb (len r) (List.length s))
  then Ok false
  else match l, r with
       | Some a, Some b => columnsEqual a b s
       | _, _ => Ok true
       end.

Definition sortOf (sfs : list (SortField value)) (rows : list (Row value))
  : Sort value :=
  {| SortFields := sfs;
     SortRowIter := Ok (rowsThenEOF rows) |}.

(** A differ as [newSortNodeDiffer] makes it, over the given rows. *)
Definition differOf (sfs : list (SortField value)) (from to : list (Row value))
  : sortNodeDiffer value :=
  {| fromChild := sortOf sfs from; toChild := sortOf sfs to;
     fromIter := newIterQueue (rowsThenEOF from);
     toIter := newIterQueue (rowsThenEOF to);
     lastCmp := unknown; ae := ae_New |}.

Definition byFirstAsc : list (SortField value) :=
  [ {| Column := GetField 0 Int64; Order := Ascending; NullOrder := NullsFirst |} ].


Definition row2 (k : Z) (s : string) : Row value := [Some (VInt k); Some (VText s)].

Definition exFrom : list (Row value) := [row2 1 "a"; row2 2 "b"; row2 3 "c"].
Definition exTo : list (Row value) := [row2 1 "a"; row2 2 "B"; row2 4 "d"].

Definition exSchema : Schema := [Int64; Text].

Definition exDiffer : QueryDiffer value Schema (sortNodeDiffer value) :=
  sortQueryDiffer exSchema (differOf byFirstAsc exFrom exTo).



(** The example differ after one [nextFromRow]: the comparison state is
    set and both sides still have rows. *)
Definition staleDiffer : sortNodeDiffer value :=
  snd (nextFromRow (differOf byFirstAsc [row2 1 "a"; row2 3 "c"] [row2 2 "b"])).

Definition extraFrom : list (Row value) := row2 (-1) "y" :: row2 0 "z" :: exFrom.


End Engine.

(** ** More rows, plans and a tuple decoder to run the theorems on *)
Module Fixtures.

Import Engine.

(** A sort key whose comparator fails on the rows: an integer comparison
    asked of the text column. *)
Definition byTextAsInt : list (SortField value) :=
  [ {| Column := GetField 1 Int64; Order := Ascending; NullOrder := NullsFirst |} ].

(** A sort key whose column does not exist in the rows. *)
Definition byMissingColumn : list (SortField value) :=
  [ {| Column := GetField 7 Int64; Order := Ascending; NullOrder := NullsFirst |} ].

Definition addedFirst : sortNodeDiffer value :=
  differOf byFirstAsc [row2 3 "c"] [row2 2 "b"; row2 4 "d"].

Definition changedFirst : sortNodeDiffer value :=
  differOf byFirstAsc [row2 2 "b"; row2 3 "c"] [row2 2 "B"; row2 4 "d"].

Definition exStart : sortNodeDiffer value := differOf byFirstAsc exFrom exTo.

(** A chain of first children that ends at an empty list of children. *)
Definition emptyChildrenPlan : Node value :=
  PlanNode (Some [PlanNode (Some []); SortNode (sortOf byFirstAsc exFrom)]).

(** Tuples of integers: the decoder state is the list of fields not yet
    read. *)
Definition readInt (d : list Z) : Z * list Z :=
  match d with
  | [] => (0, [])
  | v :: rest => (v, rest)
  end.

Definition skipInt (d : list Z) : list Z := snd (readInt d).

Definition intFields (t : list Z) : list Z * Z := (t, Z.of_nat (List.length t)).

Definition tuple123 : list Z := [10; 20; 30].
Definition tuple12 : list Z := [10; 20].

(** A callback that adds up the values and stops at the first one over 15. *)
Definition sumUntilBig (s : Z) (i : Z) (v : option Z) : bool * Z :=
  match v with
  | Some x => (15 <? x, s + x)
  | None => (true, s)
  end.

End Fixtures.


(** * Properties *)

Section Properties.

Variable Val : Type.
Variable Schema : Type.
Variable RowEquals : option (Row Val) -> option (Row Val) -> Schema -> res bool.

Local Abbreviation differ := (sortNodeDiffer Val).
Implicit Types nd : differ.

(** ** The lookahead queues and [startBoth] *)

Lemma maybeStart_started (q : iterQueue Val) a :
  iqStarted (fst (maybeStart q a)) = true.
Proof.
  unfold maybeStart. destruct (iqStarted q) eqn:E; simpl; auto.
Qed.

Lemma maybeStart_idle (q : iterQueue Val) a :
  iqStarted q = true -> maybeStart q a = (q, a).
Proof.
  intros H. unfold maybeStart. now rewrite H.
Qed.

Lemma startBoth_running nd : running (startBoth nd).
Proof.
  unfold running, startBoth.
  pose proof (maybeStart_started (fromIter nd) (ae nd)) as Hf.
  destruct (maybeStart (fromIter nd) (ae nd)) as [fq a1].
  pose proof (maybeStart_started (toIter nd) a1) as Ht.
  destruct (maybeStart (toIter nd) a1) as [tq a2]. simpl in *. auto.
Qed.

Lemma startBoth_idle nd : running nd -> startBoth nd = nd.
Proof.
  intros [Hf Ht]. unfold startBoth.
  rewrite (maybeStart_idle _ _ Hf), (maybeStart_idle _ _ Ht).
  now destruct nd.
Qed.

Lemma startBoth_twice nd : startBoth (startBoth nd) = startBoth nd.
Proof. apply startBoth_idle, startBoth_running. Qed.

Lemma startBoth_lastCmp nd : lastCmp (startBoth nd) = lastCmp nd.
Proof.
  unfold startBoth.
  destruct (maybeStart (fromIter nd) (ae nd)) as [fq a1].
  now destruct (maybeStart (toIter nd) a1).
Qed.

Lemma startBoth_fromChild nd : fromChild (startBoth nd) = fromChild nd.
Proof.
  unfold startBoth.
  destruct (maybeStart (fromIter nd) (ae nd)) as [fq a1].
  now destruct (maybeStart (toIter nd) a1).
Qed.

Lemma isDone_false_buffer (q : iterQueue Val) :
  iqStarted q = true -> isDone q = false ->
  exists r rest, iqBuffer q = r :: rest.
Proof.
  unfold isDone. intros -> H. simpl in H.
  destruct (iqBuffer q) as [|r rest]; [discriminate | eauto].
Qed.

Lemma pop_peek (q : iterQueue Val) : fst (pop q) = peek q.
Proof. unfold pop, peek. now destruct (iqBuffer q). Qed.

Lemma popFrom_eq (nd : differ) :
  popFrom nd = (Return (peek (fromIter nd), None),
                set_fromIter nd (snd (pop (fromIter nd)))).
Proof.
  unfold popFrom. rewrite <- pop_peek. now destruct (pop (fromIter nd)).
Qed.

Lemma popTo_eq (nd : differ) :
  popTo nd = (Return (peek (toIter nd), None),
              set_toIter nd (snd (pop (toIter nd)))).
Proof.
  unfold popTo. rewrite <- pop_peek. now destruct (pop (toIter nd)).
Qed.

(** ** rowCompare *)

Lemma compareFields_noSignal (pre rest : list (SortField Val)) (l r : Row Val) :
  Forall (noSignal l r) pre ->
  compareFields (pre ++ rest) l r = compareFields rest l r.
Proof.
  induction 1 as [|sf pre Hsf _ IH]; simpl; auto.
  destruct Hsf as (lv & rv & -> & -> & Hcase).
  destruct (Order sf), lv as [a|], rv as [b|]; try contradiction; auto;
    rewrite Hcase; simpl; exact IH.
Qed.


(** A descending column decides two rows as the ascending column decides
    them the other way round, nulls included. *)
Lemma descending_is_ascending_swapped
    (col : Expression Val) (no : NullOrdering) (l r : Row Val) lv rv :
  Eval col l = Ok lv -> Eval col r = Ok rv ->
  compareFields [ {| Column := col; Order := Descending; NullOrder := no |} ] l r
  = compareFields [ {| Column := col; Order := Ascending; NullOrder := no |} ] r l.
Proof.
  intros Hl Hr. simpl. now rewrite Hl, Hr.
Qed.

(** ** nextFromRow *)

Lemma peek_some (q : iterQueue Val) :
  iqStarted q = true -> isDone q = false -> exists r, peek q = Some r.
Proof.
  intros Hs Hd. destruct (isDone_false_buffer q Hs Hd) as (r & rest & E).
  unfold peek. rewrite E. eauto.
Qed.

Lemma rowCompare_returns (nd : differ) :
  running nd -> isDone (fromIter nd) = false -> isDone (toIter nd) = false ->
  exists c err, rowCompare nd (peek (fromIter nd)) (peek (toIter nd)) = Return (c, err).
Proof.
  intros [Hf Ht] Df Dt.
  destruct (peek_some _ Hf Df) as [f ->], (peek_some _ Ht Dt) as [t ->].
  unfold rowCompare.
  destruct (compareFields (SortFields (fromChild nd)) f t) as [c err]. eauto.
Qed.

Lemma nextFromRow_cases (nd0 : differ) :
  nextFromRow_spec (startBoth nd0) (fst (nextFromRow nd0)) (snd (nextFromRow nd0)).
Proof.
  unfold nextFromRow.
  set (nd := startBoth nd0).
  assert (Hrun : running nd) by apply startBoth_running.
  destruct (isDone (fromIter nd)) eqn:Df.
  { simpl. now apply spec_exhausted. }
  destruct (isDone (toIter nd)) eqn:Dt.
  { rewrite popFrom_eq. simpl. now apply spec_to_exhausted. }
  destruct (lastCmp nd =? unknown) eqn:Hu; simpl.
  2:{ apply spec_out_of_order; auto. now apply Z.eqb_neq. }
  apply Z.eqb_eq in Hu.
  destruct (rowCompare_returns Hrun Df Dt) as (c & err & Hc).
  rewrite Hc.
  destruct err as [e|].
  { simpl. eapply spec_compare_failed; eauto. }
  destruct (c =? lesser) eqn:E1.
  { rewrite popFrom_eq. simpl. apply Z.eqb_eq in E1.
    apply spec_lesser_equal; auto. }
  destruct (c =? equal) eqn:E2.
  { rewrite popFrom_eq. simpl. apply Z.eqb_eq in E2.
    apply spec_lesser_equal; auto. }
  destruct (c =? greater) eqn:E3; simpl.
  { apply Z.eqb_eq in E3. subst c. now apply spec_greater. }
  apply Z.eqb_neq in E1, E2, E3. now apply spec_bad_value.
Qed.

(** C4, with the protocol guard: every call to [nextFromRow] falls under one
    case of [nextFromRow_spec].  An exhausted from-side gives end-of-stream;
    else an exhausted to-side gives the next from-row, popped; else a
    comparison state other than Unknown panics "out of order" and changes
    nothing; else the peeks are compared and the result stored, a failed
    comparison returns its error, Lesser or Equal pops and returns the
    from-row, Greater returns the retry signal and pops nothing. *)
Theorem nextFromRow_behaviour (nd0 : differ) :
  nextFromRow_spec (startBoth nd0) (fst (nextFromRow nd0)) (snd (nextFromRow nd0)).
Proof. exact (nextFromRow_cases nd0). Qed.

(** What [nextFromRow] does once it has compared: equations used below. *)
Lemma nextFromRow_compared nd0 c err :
  fromExhausted nd0 = false -> toExhausted nd0 = false ->
  lastCmp nd0 = unknown ->
  comparePeeks nd0 = Return (c, err) ->
  lastCmp (snd (nextFromRow nd0)) = c /\
  toIter (snd (nextFromRow nd0)) = toIter (startBoth nd0).
Proof.
  unfold fromExhausted, toExhausted, comparePeeks, nextFromRow.
  intros -> -> Hu ->.
  rewrite startBoth_lastCmp, Hu. simpl.
  destruct err; [now simpl|].
  rewrite popFrom_eq.
  destruct (c =? lesser); [now simpl|].
  destruct (c =? equal); [now simpl|].
  destruct (c =? greater); now simpl.
Qed.

Lemma nextFromRow_stale nd0 :
  fromExhausted nd0 = false -> toExhausted nd0 = false ->
  lastCmp nd0 <> unknown ->
  nextFromRow nd0 = (Panics msg_out_of_order, startBoth nd0).
Proof.
  unfold fromExhausted, toExhausted, nextFromRow.
  intros -> -> Hu. rewrite startBoth_lastCmp.
  apply Z.eqb_neq in Hu. now rewrite Hu.
Qed.

Lemma nextFromRow_running nd0 : running (snd (nextFromRow nd0)).
Proof.
  pose proof (startBoth_running nd0) as [Hf Ht].
  destruct (nextFromRow_cases nd0); unfold running; simpl; auto.
  all: split; auto; unfold pop; destruct (iqBuffer _); simpl; auto.
Qed.

Lemma nextToRow_unknown nd0 :
  lastCmp nd0 = unknown ->
  fromExhausted nd0 = false -> toExhausted nd0 = false ->
  nextToRow nd0 = (Panics msg_out_of_order, startBoth nd0).
Proof.
  unfold fromExhausted, toExhausted, nextToRow.
  intros Hu -> ->. now rewrite startBoth_lastCmp, Hu.
Qed.

Lemma nextFromRow_unevaluated nd0 e :
  lastCmp nd0 = unknown ->
  fromExhausted nd0 = false -> toExhausted nd0 = false ->
  comparePeeks nd0 = Return (unknown, Some e) ->
  nextFromRow nd0 = (Return (None, Some e), startBoth nd0).
Proof.
  intros Hu Df Dt Hc.
  revert Df Dt Hc. unfold fromExhausted, toExhausted, comparePeeks, nextFromRow.
  intros -> -> ->. rewrite startBoth_lastCmp, Hu. simpl.
  f_equal. rewrite <- (startBoth_lastCmp nd0) in Hu.
  destruct (startBoth nd0). simpl in Hu. unfold set_lastCmp. simpl. now rewrite Hu.
Qed.

(** C5, as the code has it: with rows on both sides, a second [nextFromRow]
    with no [nextToRow] in between panics "out of order" whenever the
    first call's comparison of the peeks gave a [rowCmp] other than Unknown
    and both sides still have rows; when the comparison gave Unknown with
    an error (a sort column failed to evaluate), nothing is pending and the
    second call returns that error again, as the first did; and
    [nextToRow] with the comparison state Unknown and rows on both sides
    panics "out of order".  A call that panics returns no row and no
    error, and changes nothing. *)
Theorem out_of_order_is_fatal :
  (forall nd c err,
      fromExhausted nd = false -> toExhausted nd = false ->
      comparePeeks nd = Return (c, err) ->
      c <> unknown ->
      fromExhausted (snd (nextFromRow nd)) = false ->
      toExhausted (snd (nextFromRow nd)) = false ->
      nextFromRow (snd (nextFromRow nd))
        = (Panics msg_out_of_order, snd (nextFromRow nd)))
  /\
  (forall nd e,
      lastCmp nd = unknown ->
      fromExhausted nd = false -> toExhausted nd = false ->
      comparePeeks nd = Return (unknown, Some e) ->
      nextFromRow nd = (Return (None, Some e), startBoth nd) /\
      nextFromRow (snd (nextFromRow nd)) = (Return (None, Some e), startBoth nd))
  /\
  (forall nd,
      lastCmp nd = unknown ->
      fromExhausted nd = false -> toExhausted nd = false ->
      nextToRow nd = (Panics msg_out_of_order, startBoth nd)).
Proof.
  split; [|split; [|exact nextToRow_unknown]].
  - intros nd c err Df Dt Hc Hvalid Df1 Dt1.
    assert (Hstale : lastCmp (snd (nextFromRow nd)) <> unknown).
    { destruct (Z.eq_dec (lastCmp nd) unknown) as [Hu|Hu].
      - now destruct (nextFromRow_compared nd Df Dt Hu Hc) as [-> _].
      - now rewrite (nextFromRow_stale nd Df Dt Hu); simpl; rewrite startBoth_lastCmp. }
    rewrite (nextFromRow_stale _ Df1 Dt1 Hstale).
    now rewrite (startBoth_idle (nextFromRow_running nd)).
  - intros nd e Hu Df Dt Hc.
    pose proof (nextFromRow_unevaluated nd Hu Df Dt Hc) as H1.
    split; [exact H1|].
    rewrite H1. simpl. transitivity (nextFromRow nd); [|exact H1].
    unfold nextFromRow. now rewrite startBoth_twice.
Qed.

(** ** nextToRow and the comparison state *)

Lemma nextToRow_consumes nd0 :
  toExhausted nd0 = false -> lastCmp nd0 <> unknown ->
  lastCmp (snd (nextToRow nd0)) = unknown /\
  (lastCmp nd0 = lesser -> fst (nextToRow nd0) = Return (None, Some errSkip)) /\
  (lastCmp nd0 = equal \/ lastCmp nd0 = greater ->
   fst (nextToRow nd0) = Return (peek (toIter (startBoth nd0)), None)).
Proof.
  unfold toExhausted, nextToRow. intros -> Hu.
  rewrite startBoth_lastCmp. apply Z.eqb_neq in Hu. rewrite Hu.
  rewrite andb_false_r. rewrite popTo_eq.
  repeat split.
  - destruct (lastCmp nd0 =? lesser); [now simpl|].
    destruct (lastCmp nd0 =? equal); [now simpl|].
    destruct (lastCmp nd0 =? greater); now simpl.
  - now intros ->.
  - now intros [-> | ->].
Qed.

Lemma nextToRow_lastCmp nd0 :
  toExhausted nd0 = false -> lastCmp (snd (nextToRow nd0)) = unknown.
Proof.
  intros Dt. destruct (Z.eq_dec (lastCmp nd0) unknown) as [Hu|Hu].
  - revert Dt. unfold toExhausted, nextToRow. intros ->.
    rewrite startBoth_lastCmp, Hu. simpl. rewrite popTo_eq.
    destruct (isDone (fromIter (startBoth nd0))); simpl;
      now rewrite ?startBoth_lastCmp.
  - now apply nextToRow_consumes.
Qed.

Lemma nextToRow_exhausted nd0 :
  toExhausted nd0 = true ->
  nextToRow nd0 = (Return (None, Some EOF), startBoth nd0).
Proof. unfold toExhausted, nextToRow. now intros ->. Qed.

(** C7: the comparison state alternates.  A [nextFromRow] that compares
    stores its result (Lesser, Equal or Greater, so not Unknown) and leaves
    it set; a stored result cannot be produced over, since [nextFromRow]
    then panics and changes nothing; the [nextToRow] that finds a stored
    result acts on it and leaves the state Unknown, so no later call can
    consume it again; and a from-call followed by a to-call started with
    the state Unknown ends with the state Unknown. *)
Theorem comparison_state_alternates :
  (forall nd c,
      fromExhausted nd = false -> toExhausted nd = false ->
      lastCmp nd = unknown ->
      comparePeeks nd = Return (c, None) ->
      c = lesser \/ c = equal \/ c = greater ->
      lastCmp (snd (nextFromRow nd)) = c /\ c <> unknown)
  /\
  (forall nd,
      fromExhausted nd = false -> toExhausted nd = false ->
      lastCmp nd <> unknown ->
      nextFromRow nd = (Panics msg_out_of_order, startBoth nd) /\
      lastCmp (startBoth nd) = lastCmp nd)
  /\
  (forall nd,
      toExhausted nd = false -> lastCmp nd <> unknown ->
      lastCmp (snd (nextToRow nd)) = unknown /\
      (lastCmp nd = lesser -> fst (nextToRow nd) = Return (None, Some errSkip)) /\
      (lastCmp nd = equal \/ lastCmp nd = greater ->
       fst (nextToRow nd) = Return (peek (toIter (startBoth nd)), None)))
  /\
  (forall nd,
      lastCmp nd = unknown ->
      lastCmp (snd (nextToRow (snd (nextFromRow nd)))) = unknown).
Proof.
  split; [|split; [|split]].
  - intros nd c Df Dt Hu Hc Hvalid.
    destruct (nextFromRow_compared nd Df Dt Hu Hc) as [-> _].
    split; auto. unfold lesser, equal, greater, unknown in *. lia.
  - intros nd Df Dt Hu. split; [now apply nextFromRow_stale|].
    apply startBoth_lastCmp.
  - exact nextToRow_consumes.
  - intros nd Hu.
    set (nd1 := snd (nextFromRow nd)).
    destruct (toExhausted nd1) eqn:Dt1; [|now apply nextToRow_lastCmp].
    rewrite (nextToRow_exhausted _ Dt1). simpl. rewrite startBoth_lastCmp.
    (* the to-side is exhausted after the from-call: nothing was compared *)
    subst nd1. revert Dt1. unfold toExhausted.
    rewrite (startBoth_idle (nextFromRow_running nd)).
    destruct (nextFromRow_cases nd); simpl; intros Dt1;
      rewrite ?startBoth_lastCmp; auto; congruence.
Qed.

(** ** Close *)

(** C9: [QueryDiffer.Close] runs the from-side close and then the to-side
    close, whatever the first returns; it returns the from-side error when
    there is one, and the to-side result otherwise. *)
Theorem QueryDiffer_Close_both_sides
    (W : Type) (qd : QueryDiffer Val Schema W) (w : W) :
  let fromClose := wClose (qdFromIter qd) w in
  let toClose := wClose (qdToIter qd) (snd fromClose) in
  snd (QueryDiffer_Close qd w) = snd toClose /\
  fst (QueryDiffer_Close qd w)
    = match fst fromClose, fst toClose with
      | Some fromErr, _ => Some fromErr
      | None, toErr => toErr
      end.
Proof.
  unfold QueryDiffer_Close. simpl.
  destruct (wClose (qdFromIter qd) w) as [fromErr w1]. simpl.
  destruct (wClose (qdToIter qd) w1) as [toErr w2]. simpl.
  destruct fromErr; auto.
Qed.

(** C10: Close of the from-side synthetic node's iterator returns nil and
    leaves the differ as it is; Close of the to-side node's iterator closes
    both lookahead queues, changes nothing else, and returns the error held
    by the shared holder. *)
Theorem synthetic_close_only_on_to_side (nd w : differ) :
  wClose (iter (makeFromNode nd)) w = (None, w) /\
  fst (wClose (iter (makeToNode nd)) w) = ae_Get (ae w) /\
  snd (wClose (iter (makeToNode nd)) w)
    = {| fromChild := fromChild w; toChild := toChild w;
         fromIter := iq_close (fromIter w); toIter := iq_close (toIter w);
         lastCmp := lastCmp w; ae := ae w |} /\
  iqClosed (fromIter (snd (wClose (iter (makeToNode nd)) w))) = true /\
  iqClosed (toIter (snd (wClose (iter (makeToNode nd)) w))) = true.
Proof. repeat split. Qed.

(** ** Plan validation *)



Lemma single_child_chain_is_first_child_chain (p : Node Val) :
  sortOnSingleChildChain p -> sortOnFirstChildChain p.
Proof. induction 1; now constructor. Qed.


(** ** One round of the call sequence on a started differ *)

Implicit Types e : frame Val.
Implicit Types fs ts rows : list (Row Val).

Lemma running_differAt nd :
  running nd ->
  nd = differAt (frameOf nd) (iqBuffer (fromIter nd)) (iqBuffer (toIter nd)) (lastCmp nd).
Proof.
  intros [Hf Ht]. destruct nd as [fc tc [fi fb fs fcl] [ti tb ts tcl] c a].
  simpl in *. now subst.
Qed.

Lemma startBoth_differAt e fs ts c :
  startBoth (differAt e fs ts c) = differAt e fs ts c.
Proof. reflexivity. Qed.

Lemma nextFromRow_startBoth nd0 : nextFromRow nd0 = nextFromRow (startBoth nd0).
Proof. unfold nextFromRow. now rewrite startBoth_twice. Qed.

Section Rounds.

Variable e : frame Val.
Let sfs := SortFields (frFrom e).

Lemma from_at_end ts c :
  nextFromRow (differAt e [] ts c) = (Return (None, Some EOF), differAt e [] ts c).
Proof. reflexivity. Qed.

Lemma from_alone f fs c :
  nextFromRow (differAt e (f :: fs) [] c)
    = (Return (Some f, None), differAt e fs [] c).
Proof. reflexivity. Qed.

Lemma from_compares f fs t ts c :
  compareFields sfs f t = (c, None) ->
  nextFromRow (differAt e (f :: fs) (t :: ts) unknown)
    = if c =? lesser then (Return (Some f, None), differAt e fs (t :: ts) c)
      else if c =? equal then (Return (Some f, None), differAt e fs (t :: ts) c)
      else if c =? greater
           then (Return (None, Some errSkip), differAt e (f :: fs) (t :: ts) c)
           else (Panics msg_incorrect_value, differAt e (f :: fs) (t :: ts) c).
Proof.
  intros H. unfold nextFromRow. rewrite startBoth_differAt.
  cbn -[compareFields Z.eqb]. fold sfs. rewrite H.
  destruct (c =? lesser); [reflexivity|].
  destruct (c =? equal); [reflexivity|].
  destruct (c =? greater); reflexivity.
Qed.

Lemma to_at_end fs c :
  nextToRow (differAt e fs [] c) = (Return (None, Some EOF), differAt e fs [] c).
Proof. reflexivity. Qed.

Lemma to_alone t ts :
  nextToRow (differAt e [] (t :: ts) unknown)
    = (Return (Some t, None), differAt e [] ts unknown).
Proof. reflexivity. Qed.

Lemma to_after_lesser fs t ts :
  nextToRow (differAt e fs (t :: ts) lesser)
    = (Return (None, Some errSkip), differAt e fs (t :: ts) unknown).
Proof. unfold nextToRow. cbn. now rewrite andb_false_r. Qed.

Lemma to_after_equal fs t ts :
  nextToRow (differAt e fs (t :: ts) equal)
    = (Return (Some t, None), differAt e fs ts unknown).
Proof. unfold nextToRow. cbn. now rewrite andb_false_r. Qed.

Lemma to_after_greater fs t ts :
  nextToRow (differAt e fs (t :: ts) greater)
    = (Return (Some t, None), differAt e fs ts unknown).
Proof. unfold nextToRow. cbn. now rewrite andb_false_r. Qed.

End Rounds.

(** ** The call sequence is a merge *)

Lemma pullAll_round n nd0 :
  pullAll (S n) nd0 = pullAll (S n) (startBoth nd0).
Proof. simpl. now rewrite <- nextFromRow_startBoth. Qed.

Section Merge.

Variable e : frame Val.
Let sfs := SortFields (frFrom e).

Lemma pullAll_mergeTrace n : forall fs ts tr,
  mergeTrace sfs n fs ts = Some tr ->
  pullAll n (differAt e fs ts unknown) = (Some tr, differAt e [] [] unknown).
Proof.
  induction n as [|n IH]; intros fs ts tr H; [discriminate|].
  cbn [mergeTrace] in H. cbn [pullAll].
  destruct fs as [|f fs], ts as [|t ts].
  - inversion H; subst. now rewrite from_at_end, to_at_end.
  - destruct (mergeTrace sfs n [] ts) as [tl|] eqn:E; inversion H; subst.
    rewrite from_at_end, to_alone, (IH _ _ _ E). reflexivity.
  - destruct (mergeTrace sfs n fs []) as [tl|] eqn:E; inversion H; subst.
    rewrite from_alone, to_at_end, (IH _ _ _ E). reflexivity.
  - destruct (compareFields sfs f t) as [c [err|]] eqn:Hc; [discriminate|].
    rewrite (from_compares e f fs t ts Hc).
    destruct (c =? lesser) eqn:E1.
    { apply Z.eqb_eq in E1. subst c.
      destruct (mergeTrace sfs n fs (t :: ts)) as [tl|] eqn:E; inversion H; subst.
      rewrite to_after_lesser, (IH _ _ _ E). reflexivity. }
    destruct (c =? equal) eqn:E2.
    { apply Z.eqb_eq in E2. subst c.
      destruct (mergeTrace sfs n fs ts) as [tl|] eqn:E; inversion H; subst.
      rewrite to_after_equal, (IH _ _ _ E). reflexivity. }
    destruct (c =? greater) eqn:E3; [|discriminate].
    apply Z.eqb_eq in E3. subst c.
    destruct (mergeTrace sfs n (f :: fs) ts) as [tl|] eqn:E; inversion H; subst.
    rewrite to_after_greater, (IH _ _ _ E). reflexivity.
Qed.

Lemma mergeTrace_merges n : forall fs ts tr,
  mergeTrace sfs n fs ts = Some tr -> merges sfs fs ts tr.
Proof.
  induction n as [|n IH]; intros fs ts tr H; [discriminate|].
  cbn [mergeTrace] in H.
  destruct fs as [|f fs], ts as [|t ts].
  - inversion H. constructor.
  - destruct (mergeTrace sfs n [] ts) as [tl|] eqn:E; inversion H; subst.
    constructor. auto.
  - destruct (mergeTrace sfs n fs []) as [tl|] eqn:E; inversion H; subst.
    constructor. auto.
  - destruct (compareFields sfs f t) as [c [err|]] eqn:Hc; [discriminate|].
    destruct (c =? lesser) eqn:E1.
    { apply Z.eqb_eq in E1. subst c.
      destruct (mergeTrace sfs n fs (t :: ts)) as [tl|] eqn:E; inversion H; subst.
      apply merges_lesser; auto. }
    destruct (c =? equal) eqn:E2.
    { apply Z.eqb_eq in E2. subst c.
      destruct (mergeTrace sfs n fs ts) as [tl|] eqn:E; inversion H; subst.
      apply merges_equal; auto. }
    destruct (c =? greater) eqn:E3; [|discriminate].
    apply Z.eqb_eq in E3. subst c.
    destruct (mergeTrace sfs n (f :: fs) ts) as [tl|] eqn:E; inversion H; subst.
    apply merges_greater; auto.
Qed.

(** Enough rounds: one more than there are rows. *)
Lemma mergeTrace_total n : forall fs ts,
  (forall a b, In a fs -> In b ts ->
     exists c, compareFields sfs a b = (c, None) /\
               (c = lesser \/ c = equal \/ c = greater)) ->
  (List.length fs + List.length ts < n)%nat ->
  exists tr, mergeTrace sfs n fs ts = Some tr.
Proof.
  induction n as [|n IH]; intros fs ts Hcmp Hn; [lia|].
  cbn [mergeTrace].
  destruct fs as [|f fs], ts as [|t ts]; simpl in Hn.
  - eauto.
  - destruct (IH [] ts) as [tl ->]; [intros ? ? []| simpl; lia |].
    simpl. eauto.
  - destruct (IH fs []) as [tl ->]; [intros ? ? ? []| simpl; lia |].
    simpl. eauto.
  - destruct (Hcmp f t) as (c & -> & Hv); [now left | now left |].
    destruct Hv as [-> | [-> | ->]]; simpl.
    + destruct (IH fs (t :: ts)) as [tl ->]; [| simpl; lia | simpl; eauto].
      intros a b Ha Hb. apply Hcmp; [now right | exact Hb].
    + destruct (IH fs ts) as [tl ->]; [| lia | simpl; eauto].
      intros a b Ha Hb. apply Hcmp; now right.
    + destruct (IH (f :: fs) ts) as [tl ->]; [| simpl; lia | simpl; eauto].
      intros a b Ha Hb. apply Hcmp; [exact Ha | now right].
Qed.

End Merge.

Section MergeOrder.

Variable sfs : list (SortField Val).
Let le (a b : Row Val) : Prop := keyLe sfs a b = true.

Lemma merges_sides fs ts tr :
  merges sfs fs ts tr -> fromRowsOf tr = fs /\ toRowsOf tr = ts.
Proof.
  induction 1 as [ | f fs tr _ [IHf IHt] | t ts tr _ [IHf IHt]
                   | f fs t ts tr _ _ [IHf IHt] | f fs t ts tr _ _ [IHf IHt]
                   | f fs t ts tr _ _ [IHf IHt] ]; simpl; split; congruence.
Qed.

Lemma merges_Forall (P : Row Val -> Prop) fs ts tr :
  merges sfs fs ts tr -> Forall P fs -> Forall P ts ->
  Forall P (map poppedRow tr).
Proof.
  induction 1; intros Hf Ht; simpl;
    repeat match goal with
           | H : Forall P (_ :: _) |- _ => inversion H; subst; clear H
           end; auto.
Qed.

Lemma keyLe_lesser a b : compareFields sfs a b = (lesser, None) -> le a b.
Proof. unfold le, keyLe. now intros ->. Qed.

Lemma keyLe_equal a b : compareFields sfs a b = (equal, None) -> le a b.
Proof. unfold le, keyLe. now intros ->. Qed.

Variable U : list (Row Val).
Hypothesis Horder : keyOrderOn sfs U.

Lemma keyLe_flip a b c :
  In a U -> In b U ->
  compareFields sfs a b = (c, None) -> c = equal \/ c = greater -> le b a.
Proof.
  intros Ha Hb Hc Hv. destruct Horder as [Hsym _].
  destruct (Hsym a b Ha Hb) as (c' & H1 & H2 & _).
  rewrite Hc in H1. inversion H1; subst c'.
  unfold le, keyLe. rewrite H2. now destruct Hv as [-> | ->].
Qed.

Lemma keyLe_below a b l :
  In a U -> In b U -> incl l U ->
  le a b -> Forall (le b) l -> Forall (le a) l.
Proof.
  intros Ha Hb Hl Hab Hbl. destruct Horder as [_ Htrans].
  rewrite Forall_forall in *. intros x Hx.
  apply (Htrans a b x); auto. now apply Hbl.
Qed.

Lemma merges_sorted fs ts tr :
  merges sfs fs ts tr ->
  incl fs U -> incl ts U ->
  sortedByKey sfs fs -> sortedByKey sfs ts ->
  sortedByKey sfs (map poppedRow tr).
Proof.
  unfold sortedByKey. fold le.
  induction 1 as [ | f fs tr Hm IH | t ts tr Hm IH
                   | f fs t ts tr Hc Hm IH | f fs t ts tr Hc Hm IH
                   | f fs t ts tr Hc Hm IH ];
    intros Hfu Htu Hfs Hts; simpl.
  - constructor.
  - apply StronglySorted_inv in Hfs as [Hfs Hf].
    apply incl_cons_inv in Hfu as [_ Hfu].
    constructor; [auto|]. apply (merges_Forall Hm); auto.
  - apply StronglySorted_inv in Hts as [Hts Ht].
    apply incl_cons_inv in Htu as [_ Htu].
    constructor; [auto|]. apply (merges_Forall Hm); auto.
  - pose proof Hts as Hts0.
    apply StronglySorted_inv in Hfs as [Hfs Hf].
    apply StronglySorted_inv in Hts as [Hts Ht].
    apply incl_cons_inv in Hfu as [Hfin Hfu].
    pose proof Htu as Htu0. apply incl_cons_inv in Htu as [Htin Htu].
    constructor; [auto|]. apply (merges_Forall Hm); [auto|].
    constructor; [now apply keyLe_lesser|].
    apply (keyLe_below Hfin Htin Htu); [now apply keyLe_lesser | auto].
  - apply StronglySorted_inv in Hfs as [Hfs Hf].
    apply StronglySorted_inv in Hts as [Hts Ht].
    apply incl_cons_inv in Hfu as [Hfin Hfu].
    apply incl_cons_inv in Htu as [Htin Htu].
    assert (Hft : le f t) by now apply keyLe_equal.
    assert (Htf : le t f) by (apply (keyLe_flip f t Hfin Htin Hc); now left).
    constructor; [constructor; [auto|] |].
    + apply (merges_Forall Hm); [|auto].
      apply (keyLe_below Htin Hfin Hfu); auto.
    + constructor; [auto|].
      apply (merges_Forall Hm); [auto|].
      apply (keyLe_below Hfin Htin Htu); auto.
  - pose proof Hfs as Hfs0.
    apply StronglySorted_inv in Hfs as [Hfs Hf].
    apply StronglySorted_inv in Hts as [Hts Ht].
    pose proof Hfu as Hfu0. apply incl_cons_inv in Hfu as [Hfin Hfu].
    apply incl_cons_inv in Htu as [Htin Htu].
    assert (Htf : le t f) by (apply (keyLe_flip f t Hfin Htin Hc); now right).
    constructor; [auto|]. apply (merges_Forall Hm); [|auto].
    constructor; [auto|].
    apply (keyLe_below Htin Hfin Hfu); auto.
Qed.

End MergeOrder.

Lemma newSortNodeDiffer_started (from to : Sort Val) nd :
  newSortNodeDiffer from to = Ok nd ->
  fromChild nd = from /\
  lastCmp nd = unknown /\
  iqBuffer (fromIter (startBoth nd)) = streamRows (iqIter (fromIter nd)) /\
  iqBuffer (toIter (startBoth nd)) = streamRows (iqIter (toIter nd)).
Proof.
  unfold newSortNodeDiffer.
  destruct (SortRowIter from) as [fi|]; [|discriminate].
  destruct (SortRowIter to) as [ti|]; [|discriminate].
  intros H. inversion H; subst. repeat split.
Qed.

Lemma newSortNodeDiffer_of_rows (from to : Sort Val) fs ts :
  SortRowIter from = Ok (rowsThenEOF fs) ->
  SortRowIter to = Ok (rowsThenEOF ts) ->
  exists nd,
    newSortNodeDiffer from to = Ok nd /\
    streamRows (iqIter (fromIter nd)) = fs /\
    streamRows (iqIter (toIter nd)) = ts.
Proof.
  intros Hf Ht. unfold newSortNodeDiffer. rewrite Hf, Ht.
  eexists. repeat split.
Qed.

Lemma started_differAt nd fs ts :
  lastCmp nd = unknown ->
  iqBuffer (fromIter (startBoth nd)) = fs ->
  iqBuffer (toIter (startBoth nd)) = ts ->
  startBoth nd = differAt (frameOf (startBoth nd)) fs ts unknown /\
  frFrom (frameOf (startBoth nd)) = fromChild nd.
Proof.
  intros Hu Hf Ht. split.
  - rewrite (running_differAt (startBoth_running nd)) at 1.
    now rewrite Hf, Ht, startBoth_lastCmp, Hu.
  - simpl. apply startBoth_fromChild.
Qed.

(** C2: take two finite streams whose rows the sort key orders and which
    are each sorted by it, and the differ made over them.  Calling
    [nextFromRow] and [nextToRow] in turn for one round more than there are
    rows reaches the double end-of-stream; the from-rows returned are
    exactly the from-stream and the to-rows exactly the to-stream, each row
    once and in stream order; the rows come out in ascending key order; and
    both queues are left exhausted. *)
Theorem merge_visits_every_row_in_key_order
    (from to : Sort Val) (fromRows toRows : list (Row Val)) :
  SortRowIter from = Ok (rowsThenEOF fromRows) ->
  SortRowIter to = Ok (rowsThenEOF toRows) ->
  keyOrderOn (SortFields from) (fromRows ++ toRows) ->
  sortedByKey (SortFields from) fromRows ->
  sortedByKey (SortFields from) toRows ->
  exists nd tr nd',
    newSortNodeDiffer from to = Ok nd /\
    pullAll (S (List.length fromRows + List.length toRows)) nd = (Some tr, nd') /\
    fromRowsOf tr = fromRows /\
    toRowsOf tr = toRows /\
    sortedByKey (SortFields from) (map poppedRow tr) /\
    fromExhausted nd' = true /\ toExhausted nd' = true.
Proof.
  intros Hfrom Hto Hord Hsf Hst.
  destruct (newSortNodeDiffer_of_rows _ _ Hfrom Hto) as (nd & Hnew & Hf & Ht).
  destruct (newSortNodeDiffer_started _ _ Hnew) as (Hfc & Hu & Bf & Bt).
  rewrite Hf in Bf. rewrite Ht in Bt.
  destruct (started_differAt nd Hu Bf Bt) as [Hst0 Hfr].
  set (e := frameOf (startBoth nd)) in *.
  assert (Hsfs : SortFields (frFrom e) = SortFields from) by now rewrite Hfr, Hfc.
  destruct (@mergeTrace_total e (S (List.length fromRows + List.length toRows))
              fromRows toRows) as [tr Htr]; [| lia |].
  { intros a b Ha Hb. rewrite Hsfs. destruct Hord as [Hsym _].
    destruct (Hsym a b) as (c & H1 & _ & Hv); [apply in_or_app; now left
                                              | apply in_or_app; now right |].
    eauto. }
  exists nd, tr, (differAt e [] [] unknown).
  rewrite pullAll_round, Hst0, (pullAll_mergeTrace e _ _ _ Htr).
  apply mergeTrace_merges in Htr. rewrite Hsfs in Htr.
  destruct (merges_sides Htr) as [S1 S2].
  repeat split; auto.
  apply (merges_sorted Hord Htr); auto.
  - apply incl_appl, incl_refl.
  - apply incl_appr, incl_refl.
Qed.

(** ** NextDiff over the differ *)

Lemma NextDiffLoop_startBoth fuel (sc : Schema) nd0 nd b :
  NextDiffLoop RowEquals (S fuel) (sortQueryDiffer sc nd0) b nd
  = NextDiffLoop RowEquals (S fuel) (sortQueryDiffer sc nd0) b (startBoth nd).
Proof.
  cbn [NextDiffLoop]. unfold wNext. cbn [sortQueryDiffer qdFromIter makeFromNode iter next].
  now rewrite <- nextFromRow_startBoth.
Qed.

Section Facade.

Variable e : frame Val.
Variable sc : Schema.
Variable nd0 : differ.
Let sfs := SortFields (frFrom e).
Let qd := sortQueryDiffer sc nd0.

Lemma NextDiff_at_end fuel b :
  NextDiffLoop RowEquals (S fuel) qd b (differAt e [] [] unknown)
  = (Some (Return (None, None, Some EOF)), differAt e [] [] unknown).
Proof. reflexivity. Qed.

Lemma NextDiff_identical rows : forall fuel,
  (forall r, In r rows -> compareFields sfs r r = (equal, None)) ->
  (forall r, In r rows -> RowEquals (Some r) (Some r) sc = Ok true) ->
  (List.length rows < fuel)%nat ->
  NextDiffLoop RowEquals fuel qd false (differAt e rows rows unknown)
  = (Some (Return (None, None, Some EOF)), differAt e [] [] unknown).
Proof.
  induction rows as [|r rest IH]; intros fuel Hc He Hn;
    (destruct fuel as [|fuel]; [simpl in Hn; lia|]).
  - apply NextDiff_at_end.
  - cbn [NextDiffLoop]. unfold wNext.
    cbn [qd sortQueryDiffer qdFromIter qdToIter makeFromNode makeToNode iter next sch].
    rewrite (from_compares e r rest r rest (Hc r (or_introl eq_refl))).
    cbn [Z.eqb equal lesser Pos.eqb].
    rewrite to_after_equal.
    rewrite (He r (or_introl eq_refl)).
    apply IH.
    + intros x Hx. apply Hc. now right.
    + intros x Hx. apply He. now right.
    + simpl in Hn. lia.
Qed.

Lemma NextDiff_from_extra fuel f fs ts :
  (forall t, In t ts -> compareFields sfs f t = (lesser, None)) ->
  RowEquals (Some f) None sc = Ok false ->
  NextDiffLoop RowEquals (S fuel) qd false (differAt e (f :: fs) ts unknown)
  = (Some (Return (Some f, None, None)), differAt e fs ts unknown).
Proof.
  intros Hlt Hne. cbn [NextDiffLoop]. unfold wNext.
  cbn [qd sortQueryDiffer qdFromIter qdToIter makeFromNode makeToNode iter next sch].
  destruct ts as [|t ts].
  - rewrite from_alone, to_at_end. cbn. now rewrite Hne.
  - rewrite (from_compares e f fs t ts (Hlt t (or_introl eq_refl))).
    cbn [Z.eqb equal lesser Pos.eqb].
    rewrite to_after_lesser. cbn. now rewrite Hne.
Qed.

End Facade.

(** C3: over two streams with the same rows, row for row, where every sort
    column ties a row with itself and row equality holds of a row and
    itself, [NextDiff] returns no pair.  One loop iteration more than there
    are rows reaches the return, which is end-of-stream, every pulled pair
    having been found equal and dropped; and every later call returns
    end-of-stream again. *)
Theorem identical_streams_yield_no_diff
    (from to : Sort Val) (sc : Schema) (rows : list (Row Val)) :
  SortRowIter from = Ok (rowsThenEOF rows) ->
  SortRowIter to = Ok (rowsThenEOF rows) ->
  (forall r, In r rows -> Forall (noSignal r r) (SortFields from)) ->
  (forall r, In r rows -> RowEquals (Some r) (Some r) sc = Ok true) ->
  exists nd nd',
    newSortNodeDiffer from to = Ok nd /\
    (forall fuel, (List.length rows < fuel)%nat ->
       NextDiff RowEquals fuel (sortQueryDiffer sc nd) nd
       = (Some (Return (None, None, Some EOF)), nd')) /\
    (forall fuel,
       NextDiff RowEquals (S fuel) (sortQueryDiffer sc nd) nd'
       = (Some (Return (None, None, Some EOF)), nd')).
Proof.
  intros Hfrom Hto Hkey Heq.
  destruct (newSortNodeDiffer_of_rows _ _ Hfrom Hto) as (nd & Hnew & Hf & Ht).
  destruct (newSortNodeDiffer_started _ _ Hnew) as (Hfc & Hu & Bf & Bt).
  rewrite Hf in Bf. rewrite Ht in Bt.
  destruct (started_differAt nd Hu Bf Bt) as [Hst0 Hfr].
  set (e := frameOf (startBoth nd)) in *.
  assert (Hsfs : SortFields (frFrom e) = SortFields from) by now rewrite Hfr, Hfc.
  exists nd, (differAt e [] [] unknown). split; [exact Hnew|split].
  - intros [|fuel] Hn; [lia|]. unfold NextDiff.
    rewrite NextDiffLoop_startBoth, Hst0.
    apply NextDiff_identical; auto.
    intros r Hr. rewrite Hsfs.
    rewrite <- (app_nil_r (SortFields from)).
    now rewrite (compareFields_noSignal _ (Hkey r Hr)).
  - intros fuel. apply NextDiff_at_end.
Qed.

Lemma NextDiffs_from_extras e (sc : Schema) nd0 fuel ts fs : forall pre,
  (forall p t, In p pre -> In t ts ->
     compareFields (SortFields (frFrom e)) p t = (lesser, None)) ->
  (forall p, In p pre -> RowEquals (Some p) None sc = Ok false) ->
  NextDiffs RowEquals (S fuel) (List.length pre) (sortQueryDiffer sc nd0)
            (differAt e (pre ++ fs) ts unknown)
  = (map (@removedRow Val) pre, differAt e fs ts unknown).
Proof.
  induction pre as [|p pre IH]; intros Hlt Hne; [reflexivity|].
  cbn [List.length NextDiffs app map]. unfold NextDiff.
  rewrite NextDiff_from_extra.
  - rewrite IH; [reflexivity | |].
    + intros x t Hx Ht. apply Hlt; [now right | exact Ht].
    + intros x Hx. apply Hne. now right.
  - intros t Ht. apply Hlt; [now left | exact Ht].
  - apply Hne. now left.
Qed.

Section KeyOrderFacts.

Variable sfs : list (SortField Val).
Variable U : list (Row Val).
Hypothesis Horder : keyOrderOn sfs U.

(** A row not after one that is strictly before [t] is strictly before [t]. *)
Lemma strictly_before p f t :
  In p U -> In f U -> In t U ->
  keyLe sfs p f = true ->
  compareFields sfs f t = (lesser, None) ->
  compareFields sfs p t = (lesser, None).
Proof.
  intros Hp Hf Ht Hpf Hft. destruct Horder as [Hsym Htrans].
  assert (Htf : keyLe sfs t f = false).
  { destruct (Hsym f t Hf Ht) as (c & H1 & H2 & _).
    rewrite Hft in H1. inversion H1; subst c.
    unfold keyLe. now rewrite H2. }
  destruct (Hsym p t Hp Ht) as (c & H1 & H2 & Hv).
  destruct Hv as [-> | Hv]; [exact H1|].
  assert (Htp : keyLe sfs t p = true).
  { unfold keyLe. rewrite H2. now destruct Hv as [-> | ->]. }
  rewrite (Htrans t p f Ht Hp Hf Htp Hpf) in Htf. discriminate.
Qed.

Lemma sorted_before_last pre f :
  sortedByKey sfs (pre ++ [f]) ->
  forall p, In p pre -> keyLe sfs p f = true.
Proof.
  unfold sortedByKey. induction pre as [|a pre IH]; intros Hs p Hp; [destruct Hp|].
  simpl in Hs. apply StronglySorted_inv in Hs as [Hs Ha].
  destruct Hp as [<- | Hp]; [|now apply IH].
  rewrite Forall_forall in Ha. apply Ha, in_or_app. right. now left.
Qed.

End KeyOrderFacts.

(** C6: let the from-side hold, in key order, the rows [pre], then a row
    [f] whose key is strictly smaller than the key of every to-side row,
    where the sort key orders these rows and none of them equals the absent
    row.  Then the calls of [NextDiff] return, each in its first loop
    iteration, the rows of [pre] and then [f], every one paired with the
    absent marker; when [f] has been returned the to-side is untouched and
    the comparison state is Unknown. *)
Theorem extra_from_row_reported_with_absent
    (nd : differ) (sc : Schema) (pre : list (Row Val)) (f : Row Val)
    (fs ts : list (Row Val)) :
  lastCmp nd = unknown ->
  iqBuffer (fromIter (startBoth nd)) = pre ++ f :: fs ->
  iqBuffer (toIter (startBoth nd)) = ts ->
  keyOrderOn (SortFields (fromChild nd)) ((pre ++ [f]) ++ ts) ->
  sortedByKey (SortFields (fromChild nd)) (pre ++ [f]) ->
  (forall t, In t ts ->
     compareFields (SortFields (fromChild nd)) f t = (lesser, None)) ->
  (forall p, In p (pre ++ [f]) -> RowEquals (Some p) None sc = Ok false) ->
  forall fuel, exists nd',
    NextDiffs RowEquals (S fuel) (S (List.length pre)) (sortQueryDiffer sc nd) nd
      = (map (@removedRow Val) (pre ++ [f]), nd') /\
    iqBuffer (fromIter nd') = fs /\
    iqBuffer (toIter nd') = ts /\
    lastCmp nd' = unknown.
Proof.
  intros Hu Bf Bt Hord Hsorted Hlt Hne fuel.
  destruct (started_differAt nd Hu Bf Bt) as [Hst0 Hfr].
  set (e := frameOf (startBoth nd)) in *.
  exists (differAt e fs ts unknown). split; [|repeat split].
  replace (S (List.length pre)) with (List.length (pre ++ [f]))
    by (rewrite length_app; simpl; lia).
  replace (NextDiffs RowEquals (S fuel) (List.length (pre ++ [f]))
             (sortQueryDiffer sc nd) nd)
    with (NextDiffs RowEquals (S fuel) (List.length (pre ++ [f]))
            (sortQueryDiffer sc nd) (startBoth nd)).
  2:{ destruct pre; cbn [app List.length NextDiffs]; unfold NextDiff;
        now rewrite <- NextDiffLoop_startBoth. }
  rewrite Hst0.
  replace (pre ++ f :: fs) with ((pre ++ [f]) ++ fs)
    by (now rewrite <- app_assoc).
  apply NextDiffs_from_extras; [|exact Hne].
  rewrite Hfr. intros p t Hp Ht.
  apply in_app_or in Hp as [Hp | [<- | []]]; [|now apply Hlt].
  apply (strictly_before Hord) with (f := f).
  - apply in_or_app. left. apply in_or_app. now left.
  - apply in_or_app. left. apply in_or_app. right. now left.
  - apply in_or_app. now right.
  - now apply (@sorted_before_last _ pre f Hsorted).
  - now apply Hlt.
Qed.

(** ** Checking the key order on given rows *)

Lemma keyOrderOnb_sound (sfs : list (SortField Val)) (U : list (Row Val)) :
  keyOrderOnb sfs U = true -> keyOrderOn sfs U.
Proof.
  unfold keyOrderOnb, keyOrderOn. intros H.
  apply andb_prop in H as [H1 H2].
  rewrite forallb_forall in H1, H2. split.
  - intros a b Ha Hb.
    specialize (H1 a Ha). rewrite forallb_forall in H1. specialize (H1 b Hb).
    unfold comparesBothWays in H1.
    destruct (compareFields sfs a b) as [c [err|]]; [discriminate|].
    destruct (compareFields sfs b a) as [c' [err|]]; [discriminate|].
    apply andb_prop in H1 as [Hneg Hv]. apply Z.eqb_eq in Hneg. subst c'.
    exists c. repeat split.
    unfold validCmp in Hv.
    apply orb_prop in Hv as [Hv | Hv]; [apply orb_prop in Hv as [Hv | Hv]|];
      apply Z.eqb_eq in Hv; auto.
  - intros a b c Ha Hb Hc Hab Hbc.
    specialize (H2 a Ha). rewrite forallb_forall in H2.
    specialize (H2 b Hb). rewrite forallb_forall in H2.
    specialize (H2 c Hc). now rewrite Hab, Hbc in H2.
Qed.

End Properties.

(** * The theorems on the concrete engine *)

Import Engine.



(** C2 on the example streams of section 8. *)
Lemma merge_visits_every_row_witness :
  exists nd tr nd',
    newSortNodeDiffer (sortOf byFirstAsc exFrom) (sortOf byFirstAsc exTo) = Ok nd /\
    pullAll 7 nd = (Some tr, nd') /\
    fromRowsOf tr = exFrom /\
    toRowsOf tr = exTo /\
    sortedByKey byFirstAsc (map poppedRow tr) /\
    fromExhausted nd' = true /\ toExhausted nd' = true.
Proof.
  apply (@merge_visits_every_row_in_key_order value
           (sortOf byFirstAsc exFrom) (sortOf byFirstAsc exTo) exFrom exTo).
  - reflexivity.
  - reflexivity.
  - apply keyOrderOnb_sound. vm_compute. reflexivity.
  - repeat constructor.
  - repeat constructor.
Defined.

(** C3 on the from-side rows of the example, fed to both sides. *)
Lemma identical_streams_witness :
  exists nd nd',
    newSortNodeDiffer (sortOf byFirstAsc exFrom) (sortOf byFirstAsc exFrom) = Ok nd /\
    (forall fuel, (List.length exFrom < fuel)%nat ->
       NextDiff RowEquals fuel (sortQueryDiffer exSchema nd) nd
       = (Some (Return (None, None, Some EOF)), nd')) /\
    (forall fuel,
       NextDiff RowEquals (S fuel) (sortQueryDiffer exSchema nd) nd'
       = (Some (Return (None, None, Some EOF)), nd')).
Proof.
  apply (@identical_streams_yield_no_diff value Schema RowEquals
           (sortOf byFirstAsc exFrom) (sortOf byFirstAsc exFrom) exSchema exFrom).
  - reflexivity.
  - reflexivity.
  - intros r [<- | [<- | [<- | []]]]; (constructor; [|constructor]);
      eexists; eexists; repeat split.
  - intros r [<- | [<- | [<- | []]]]; reflexivity.
Defined.

(** C4 fails as stated: with a comparison result pending and rows on both
    sides, the call panics, which is none of the claimed outcomes. *)
Lemma nextFromRow_stale_state_panics :
  fromExhausted staleDiffer = false /\
  toExhausted staleDiffer = false /\
  comparePeeks staleDiffer = Return (greater, None) /\
  nextFromRow staleDiffer = (Panics msg_out_of_order, staleDiffer) /\
  ~ nextFromRow_claimed (startBoth staleDiffer)
      (fst (nextFromRow staleDiffer)) (snd (nextFromRow staleDiffer)).
Proof.
  repeat split. intros H. inversion H.
Qed.

(** C5 fails as stated: when the sort column does not evaluate on the
    rows, both sides have rows before and after the first [nextFromRow],
    and the second call in a row returns the same error as the first
    instead of panicking. *)
Lemma second_pull_after_failed_evaluation_returns_error :
  fromExhausted (differOf Fixtures.byMissingColumn exFrom exTo) = false /\
  toExhausted (differOf Fixtures.byMissingColumn exFrom exTo) = false /\
  fst (nextFromRow (differOf Fixtures.byMissingColumn exFrom exTo))
    = Return (None, Some (OtherError "field index out of bounds")) /\
  fromExhausted (snd (nextFromRow (differOf Fixtures.byMissingColumn exFrom exTo)))
    = false /\
  toExhausted (snd (nextFromRow (differOf Fixtures.byMissingColumn exFrom exTo)))
    = false /\
  fst (nextFromRow (snd (nextFromRow (differOf Fixtures.byMissingColumn exFrom exTo))))
    = Return (None, Some (OtherError "field index out of bounds")) /\
  fst (nextFromRow (snd (nextFromRow (differOf Fixtures.byMissingColumn exFrom exTo))))
    <> Panics msg_out_of_order.
Proof. repeat split. discriminate. Qed.

(** C5 on the example: the from-side is pulled twice in a row after a
    comparison that gave Equal; twice in a row over a sort column that does
    not evaluate; and the to-side is pulled first on a fresh differ. *)
Lemma out_of_order_witness :
  nextFromRow (snd (nextFromRow (differOf byFirstAsc exFrom exTo)))
    = (Panics msg_out_of_order, snd (nextFromRow (differOf byFirstAsc exFrom exTo)))
  /\
  (nextFromRow (differOf Fixtures.byMissingColumn exFrom exTo)
     = (Return (None, Some (OtherError "field index out of bounds")),
        startBoth (differOf Fixtures.byMissingColumn exFrom exTo)) /\
   nextFromRow (snd (nextFromRow (differOf Fixtures.byMissingColumn exFrom exTo)))
     = (Return (None, Some (OtherError "field index out of bounds")),
        startBoth (differOf Fixtures.byMissingColumn exFrom exTo)))
  /\
  nextToRow (differOf byFirstAsc exFrom exTo)
    = (Panics msg_out_of_order, startBoth (differOf byFirstAsc exFrom exTo)).
Proof.
  split; [|split].
  - apply (proj1 (@out_of_order_is_fatal value)
             (differOf byFirstAsc exFrom exTo) equal None);
      try reflexivity. discriminate.
  - apply (proj1 (proj2 (@out_of_order_is_fatal value))
             (differOf Fixtures.byMissingColumn exFrom exTo)); reflexivity.
  - apply (proj2 (proj2 (@out_of_order_is_fatal value))
             (differOf byFirstAsc exFrom exTo)); reflexivity.
Defined.

(** C6 on the example with the rows (-1, y) and (0, z) put in front of
    the from-side: (0, z) is the extra row. *)
Lemma extra_from_row_witness :
  exists nd',
    NextDiffs RowEquals 1 2
      (sortQueryDiffer exSchema (differOf byFirstAsc extraFrom exTo))
      (differOf byFirstAsc extraFrom exTo)
      = ([removedRow (row2 (-1) "y"); removedRow (row2 0 "z")], nd') /\
    iqBuffer (fromIter nd') = exFrom /\
    iqBuffer (toIter nd') = exTo /\
    lastCmp nd' = unknown.
Proof.
  refine (@extra_from_row_reported_with_absent value Schema RowEquals
            (differOf byFirstAsc extraFrom exTo) exSchema
            [row2 (-1) "y"] (row2 0 "z") exFrom exTo _ _ _ _ _ _ _ O).
  - reflexivity.
  - reflexivity.
  - reflexivity.
  - apply keyOrderOnb_sound. vm_compute. reflexivity.
  - repeat constructor.
  - intros t [<- | [<- | [<- | []]]]; reflexivity.
  - intros p [<- | [<- | []]]; reflexivity.
Defined.

(** C7 on the example: the first from-call stores Equal, the to-call that
    follows returns its row and leaves the state Unknown. *)
Lemma comparison_state_witness :
  (lastCmp (snd (nextFromRow (differOf byFirstAsc exFrom exTo))) = equal /\
   equal <> unknown) /\
  lastCmp (snd (nextToRow (snd (nextFromRow (differOf byFirstAsc exFrom exTo)))))
    = unknown.
Proof.
  split.
  - apply (proj1 (@comparison_state_alternates value)
             (differOf byFirstAsc exFrom exTo) equal); auto; reflexivity.
  - apply (proj2 (proj2 (proj2 (@comparison_state_alternates value)))
             (differOf byFirstAsc exFrom exTo)); reflexivity.
Defined.


(** The example of section 8: the pair with key 1 is dropped as equal; the
    calls return the changed pair, the removed row, the added row, and then
    end-of-stream. *)
Example section8_example :
  fst (NextDiffs RowEquals 2 4 exDiffer (differOf byFirstAsc exFrom exTo))
  = [ Some (Return (Some (row2 2 "b"), Some (row2 2 "B"), None));
      Some (Return (Some (row2 3 "c"), None, None));
      Some (Return (None, Some (row2 4 "d"), None));
      Some (Return (None, None, Some EOF)) ].
Proof. reflexivity. Qed.

(** Closing the example session closes both queues through the to-side
    iterator and returns what the shared holder has. *)
Example close_example :
  let w := differOf byFirstAsc exFrom exTo in
  fst (QueryDiffer_Close exDiffer w) = None /\
  iqClosed (fromIter (snd (QueryDiffer_Close exDiffer w))) = true /\
  iqClosed (toIter (snd (QueryDiffer_Close exDiffer w))) = true.
Proof. repeat split. Qed.

(** * Further properties of the differ *)

Section PullProperties.

Variable Val : Type.
Local Abbreviation differ := (sortNodeDiffer Val).
Implicit Types nd : differ.

Lemma pop_buffer (q : iterQueue Val) :
  iqBuffer q = match peek q with Some r => [r] | None => [] end
               ++ iqBuffer (snd (pop q)).
Proof. unfold peek, pop. destruct (iqBuffer q) eqn:E; simpl; auto. Qed.

(** X1: a call of [nextFromRow] neither loses nor invents a row.  The
    from-side buffer it found is the row it returned, if any, followed by
    the buffer it leaves; the to-side buffer, both plan nodes and the error
    holder are as they were once both queues had started; and a row is
    never returned together with an error. *)
Theorem nextFromRow_conserves_rows nd0 :
  let nd := startBoth nd0 in
  let p := fst (nextFromRow nd0) in
  let nd' := snd (nextFromRow nd0) in
  iqBuffer (fromIter nd) = returnedRows p ++ iqBuffer (fromIter nd') /\
  iqBuffer (toIter nd') = iqBuffer (toIter nd) /\
  fromChild nd' = fromChild nd /\ toChild nd' = toChild nd /\ ae nd' = ae nd /\
  (forall r e, p <> Return (Some r, Some e)).
Proof.
  cbv zeta.
  pose proof (startBoth_running nd0) as [Hf Ht].
  destruct (nextFromRow_cases nd0) as [ D | Df Dt | | | c Df Dt Hu Hc Hv | | ];
    simpl; repeat split; auto; try discriminate.
  all: try (destruct (isDone_false_buffer _ Hf Df) as (r & rest & E);
            unfold peek, pop; rewrite E; simpl; auto; discriminate).
Qed.

(** X2: the same for [nextToRow]: the to-side buffer it found is the row it
    returned, if any, followed by the buffer it leaves, and the from-side
    buffer, the plan nodes and the error holder are untouched. *)
Theorem nextToRow_conserves_rows nd0 :
  let nd := startBoth nd0 in
  let p := fst (nextToRow nd0) in
  let nd' := snd (nextToRow nd0) in
  iqBuffer (toIter nd) = returnedRows p ++ iqBuffer (toIter nd') /\
  iqBuffer (fromIter nd') = iqBuffer (fromIter nd) /\
  fromChild nd' = fromChild nd /\ toChild nd' = toChild nd /\ ae nd' = ae nd /\
  (forall r e, p <> Return (Some r, Some e)).
Proof.
  cbv zeta. unfold nextToRow.
  pose proof (startBoth_running nd0) as [Hf Ht].
  set (nd := startBoth nd0) in *.
  destruct (isDone (toIter nd)) eqn:Dt.
  { simpl. repeat split; discriminate. }
  destruct (isDone_false_buffer _ Ht Dt) as (r & rest & E).
  assert (Hpop : forall w : differ, iqBuffer (toIter w) = r :: rest ->
            popTo w = (Return (Some r, None),
                       set_toIter w (snd (pop (toIter w)))) /\
            iqBuffer (snd (pop (toIter w))) = rest).
  { intros w Ew. rewrite popTo_eq. unfold peek, pop. now rewrite Ew. }
  destruct (Hpop nd E) as [P1 P2].
  destruct (Hpop (set_lastCmp nd unknown) E) as [Q1 Q2].
  destruct (isDone (fromIter nd) && (lastCmp nd =? unknown)).
  { rewrite P1. simpl. rewrite P2, E. repeat split; discriminate. }
  destruct (lastCmp nd =? unknown).
  { simpl. repeat split; discriminate. }
  destruct (lastCmp nd =? lesser).
  { simpl. repeat split; discriminate. }
  destruct (lastCmp nd =? equal).
  { rewrite Q1. simpl. simpl in Q2. rewrite Q2, E. repeat split; discriminate. }
  destruct (lastCmp nd =? greater).
  { rewrite Q1. simpl. simpl in Q2. rewrite Q2, E. repeat split; discriminate. }
  simpl. repeat split; discriminate.
Qed.

End PullProperties.

Section CompareProperties.

Variable Val : Type.
Local Abbreviation differ := (sortNodeDiffer Val).
Implicit Types nd : differ.
Implicit Types sfs : list (SortField Val).

(** X3: [rowCompare] looks at a row only through the sort columns: two
    pairs of rows on which every sort column evaluates alike compare
    alike, whatever their other columns hold. *)
Theorem rowCompare_reads_only_the_key sfs (l l' r r' : Row Val) :
  sameKey sfs l l' -> sameKey sfs r r' ->
  compareFields sfs l r = compareFields sfs l' r'.
Proof.
  unfold sameKey. induction sfs as [|sf sfs IH]; intros Hl Hr; [reflexivity|].
  simpl. rewrite <- (Hl sf (or_introl eq_refl)), <- (Hr sf (or_introl eq_refl)).
  rewrite IH; [reflexivity | |]; intros x Hx; [apply Hl | apply Hr]; now right.
Qed.

Lemma rowCmp_of_int_sign c :
  c = -1 \/ c = 0 \/ c = 1 -> rowCmp_of_int c = c.
Proof. now intros [-> | [-> | ->]]. Qed.

Lemma compareFields_range sfs (l r : Row Val) c err :
  comparatorsInRange sfs ->
  compareFields sfs l r = (c, err) ->
  knownCmp c /\ (err = None -> c <> unknown).
Proof.
  unfold knownCmp, lesser, equal, greater, unknown.
  induction sfs as [|sf sfs IH]; intros Hr H; simpl in H.
  - inversion H; subst. split; [auto | lia].
  - assert (Hr' : comparatorsInRange sfs).
    { intros x a b k Hx. apply Hr. now right. }
    destruct (Eval (Column sf) l) as [lv|e]; [|inversion H; subst; split; [auto | discriminate]].
    destruct (Eval (Column sf) r) as [rv|e]; [|inversion H; subst; split; [auto | discriminate]].
    destruct (Order sf), lv as [a|], rv as [b|], (NullOrder sf);
      simpl in H; unfold lesser, greater in H;
      try (inversion H; subst; split; [auto | lia]); try (now apply IH).
    all: match type of H with
         | context [Compare ?t ?x ?y] =>
             destruct (Compare t x y) as [k|e] eqn:Hk;
               [|inversion H; subst; split; [auto | discriminate]];
               destruct (k =? 0); [now apply IH|];
               pose proof (Hr sf x y k (or_introl eq_refl) Hk) as Hv;
               rewrite (rowCmp_of_int_sign Hv) in H; inversion H; subst;
               split; [lia | lia]
         end.
Qed.

(** X4: when every column comparator returns -1, 0 or 1, the comparison
    state only ever holds Lesser, Equal, Greater or Unknown: both pull
    operations keep it so, they leave the sort fields alone, and neither
    raises the "incorrect value" panic. *)
Theorem incorrect_value_panic_unreachable nd :
  comparatorsInRange (SortFields (fromChild nd)) ->
  knownCmp (lastCmp nd) ->
  (knownCmp (lastCmp (snd (nextFromRow nd))) /\
   fromChild (snd (nextFromRow nd)) = fromChild nd /\
   fst (nextFromRow nd) <> Panics msg_incorrect_value) /\
  (knownCmp (lastCmp (snd (nextToRow nd))) /\
   fromChild (snd (nextToRow nd)) = fromChild nd /\
   fst (nextToRow nd) <> Panics msg_incorrect_value).
Proof.
  intros Hr Hk.
  assert (Hne : Panics (A := option (Row Val) * option error) msg_out_of_order
                <> Panics msg_incorrect_value) by discriminate.
  rewrite <- (startBoth_lastCmp nd) in Hk.
  rewrite <- (startBoth_fromChild nd) in Hr |- *.
  split.
  - pose proof (startBoth_running nd) as Hrun.
    destruct (nextFromRow_cases nd) as [ | | | c e Df Dt Hu Hc | c Df Dt Hu Hc Hv
                                        | Df Dt Hu Hc | c Df Dt Hu Hc N1 N2 N3 ];
      simpl; repeat split; auto; try discriminate.
    + destruct (peek_some _ (proj1 Hrun) Df) as [f Pf],
               (peek_some _ (proj2 Hrun) Dt) as [t Pt].
      rewrite Pf, Pt in Hc. inversion Hc as [Hc'].
      exact (proj1 (@compareFields_range _ _ _ _ _ Hr Hc')).
    + unfold knownCmp. destruct Hv as [-> | ->]; auto.
    + unfold knownCmp. auto.
    + exfalso.
      destruct (peek_some _ (proj1 Hrun) Df) as [f Pf],
               (peek_some _ (proj2 Hrun) Dt) as [t Pt].
      rewrite Pf, Pt in Hc. inversion Hc as [Hc'].
      destruct (@compareFields_range _ _ _ _ _ Hr Hc') as [[E|[E|[E|E]]] Hnu];
        [apply N1 | apply N2 | apply N3 | apply (Hnu eq_refl)]; exact E.
    + exfalso.
      destruct (peek_some _ (proj1 Hrun) Df) as [f Pf],
               (peek_some _ (proj2 Hrun) Dt) as [t Pt].
      rewrite Pf, Pt in Hc. inversion Hc as [Hc'].
      destruct (@compareFields_range _ _ _ _ _ Hr Hc') as [[E|[E|[E|E]]] Hnu];
        [apply N1 | apply N2 | apply N3 | apply (Hnu eq_refl)]; exact E.
  - unfold nextToRow. set (w := startBoth nd) in *.
    assert (Hu : knownCmp unknown) by (unfold knownCmp; auto).
    destruct (isDone (toIter w)); [simpl; repeat split; auto; discriminate|].
    destruct (isDone (fromIter w) && (lastCmp w =? unknown));
      [rewrite popTo_eq; simpl; repeat split; auto; discriminate|].
    destruct (lastCmp w =? unknown) eqn:E0; [simpl; repeat split; auto|].
    destruct (lastCmp w =? lesser) eqn:E1; [simpl; repeat split; auto; discriminate|].
    destruct (lastCmp w =? equal) eqn:E2;
      [rewrite popTo_eq; simpl; repeat split; auto; discriminate|].
    destruct (lastCmp w =? greater) eqn:E3;
      [rewrite popTo_eq; simpl; repeat split; auto; discriminate|].
    exfalso. apply Z.eqb_neq in E0, E1, E2, E3.
    destruct Hk as [?|[?|[?|?]]]; auto.
Qed.

Lemma compareFields_antisymmetric sfs (l r : Row Val) c :
  comparatorsInRange sfs ->
  comparatorsAntisymmetric sfs ->
  compareFields sfs l r = (c, None) ->
  compareFields sfs r l = (- c, None).
Proof.
  induction sfs as [|sf sfs IH]; intros Hr Ha H; simpl in H |- *.
  - now inversion H.
  - assert (Hr' : comparatorsInRange sfs).
    { intros x a b k Hx. apply Hr. now right. }
    assert (Ha' : comparatorsAntisymmetric sfs).
    { intros x a b k Hx. apply Ha. now right. }
    destruct (Eval (Column sf) l) as [lv|e]; [|discriminate].
    destruct (Eval (Column sf) r) as [rv|e]; [|discriminate].
    destruct (Order sf), lv as [a|], rv as [b|], (NullOrder sf);
      try (inversion H; subst; reflexivity); try (now apply IH).
    all: match type of H with
         | context [Compare ?t ?x ?y] =>
             destruct (Compare t x y) as [k|e] eqn:Hk; [|discriminate];
               rewrite (Ha sf x y k (or_introl eq_refl) Hk);
               pose proof (Hr sf x y k (or_introl eq_refl) Hk) as Hv;
               destruct Hv as [-> | [-> | ->]]; simpl in H |- *;
               try (now apply IH); inversion H; subst; reflexivity
         end.
Qed.

(** X5: when every column comparator returns -1, 0 or 1 and the opposite
    number for swapped operands, so does [rowCompare]: if two rows compare
    without error, they compare without error the other way round, with
    the opposite result.  Null placement and descending columns included. *)
Theorem rowCompare_antisymmetric sfs (l r : Row Val) c :
  comparatorsInRange sfs ->
  comparatorsAntisymmetric sfs ->
  compareFields sfs l r = (c, None) ->
  compareFields sfs r l = (- c, None).
Proof. apply compareFields_antisymmetric. Qed.

Lemma compareFields_error_value sfs (l r : Row Val) c e :
  compareFields sfs l r = (c, Some e) -> c = unknown \/ c = equal.
Proof.
  induction sfs as [|sf sfs IH]; intros H; simpl in H; [discriminate|].
  destruct (Eval (Column sf) l) as [lv|e1]; [|inversion H; auto].
  destruct (Eval (Column sf) r) as [rv|e1]; [|inversion H; auto].
  destruct (Order sf), lv as [a|], rv as [b|], (NullOrder sf);
    try discriminate; try (now apply IH).
  all: match type of H with
       | context [Compare ?t ?x ?y] =>
           destruct (Compare t x y) as [k|e1]; [|inversion H; now right];
             destruct (k =? 0); [now apply IH | discriminate]
       end.
Qed.

(** X7: what a failed comparison leaves behind.  When the peeks' comparison
    returns an error, [nextFromRow] returns that error, pops nothing and
    stores the [rowCmp] that came with it, which is Unknown when a column
    failed to evaluate and Equal (0) when a comparator failed.  In the
    second case the [nextToRow] that follows returns the to-side's next
    row; in the first it panics "out of order". *)
Theorem failed_comparison_state nd c e :
  fromExhausted nd = false -> toExhausted nd = false ->
  lastCmp nd = unknown ->
  comparePeeks nd = Return (c, Some e) ->
  nextFromRow nd = (Return (None, Some e), set_lastCmp (startBoth nd) c) /\
  (c = unknown \/ c = equal) /\
  (c = equal ->
   fst (nextToRow (snd (nextFromRow nd)))
     = Return (peek (toIter (startBoth nd)), None)) /\
  (c = unknown ->
   fst (nextToRow (snd (nextFromRow nd))) = Panics msg_out_of_order).
Proof.
  intros Df Dt Hu Hc.
  assert (Hcall : nextFromRow nd = (Return (None, Some e), set_lastCmp (startBoth nd) c)).
  { revert Df Dt Hc. unfold fromExhausted, toExhausted, comparePeeks, nextFromRow.
    intros -> -> ->. now rewrite startBoth_lastCmp, Hu. }
  assert (Hval : c = unknown \/ c = equal).
  { pose proof (startBoth_running nd) as [Hf Ht].
    unfold comparePeeks in Hc. unfold fromExhausted in Df. unfold toExhausted in Dt.
    destruct (peek_some _ Hf Df) as [f Pf], (peek_some _ Ht Dt) as [t Pt].
    rewrite Pf, Pt in Hc. inversion Hc as [Hc'].
    exact (compareFields_error_value _ _ _ Hc'). }
  rewrite Hcall. simpl.
  assert (Hrun : running (set_lastCmp (startBoth nd) c)) by apply startBoth_running.
  unfold nextToRow. rewrite (startBoth_idle Hrun). simpl.
  unfold fromExhausted in Df. unfold toExhausted in Dt. rewrite Df, Dt. simpl.
  repeat split; auto.
  - intros ->. simpl. now rewrite popTo_eq.
  - intros ->. reflexivity.
Qed.

(** [rowCompare] is the lexicographic combination of the columns' signals. *)
Lemma compareFields_by_signal (sf : SortField Val) sfs (l r : Row Val) :
  compareFields (sf :: sfs) l r
  = match Eval (Column sf) l with
    | Err e => (unknown, Some e)
    | Ok lv =>
        match Eval (Column sf) r with
        | Err e => (unknown, Some e)
        | Ok rv =>
            match colSignal sf lv rv with
            | Err e => (0, Some e)
            | Ok s => if s =? 0 then compareFields sfs l r
                      else (rowCmp_of_int s, None)
            end
        end
    end.
Proof.
  simpl. unfold colSignal.
  destruct (Eval (Column sf) l) as [lv|]; [|reflexivity].
  destruct (Eval (Column sf) r) as [rv|]; [|reflexivity].
  destruct (Order sf), lv, rv, (NullOrder sf); reflexivity.
Qed.

Lemma colSignal_range (sf : SortField Val) sfs u v s :
  comparatorsInRange sfs -> In sf sfs ->
  colSignal sf u v = Ok s -> s = -1 \/ s = 0 \/ s = 1.
Proof.
  intros Hr Hin. unfold colSignal.
  destruct (Order sf), u, v, (NullOrder sf); intros H;
    try (inversion H; subst; auto; fail); eapply Hr; eauto.
Qed.

Lemma colSignal_transitive (sf : SortField Val) sfs u v w p q :
  comparatorsInRange sfs ->
  comparatorsTransitive sfs -> In sf sfs ->
  colSignal sf u v = Ok p -> colSignal sf v w = Ok q ->
  p <= 0 -> q <= 0 ->
  colSignal sf u w = Ok (Z.min p q).
Proof.
  intros Hr Ht Hin. unfold colSignal.
  destruct (Order sf), u, v, w, (NullOrder sf); intros Hp Hq Lp Lq;
    try (inversion Hp; inversion Hq; subst; simpl in *; reflexivity || lia).
  all: try (inversion Hp; subst; simpl in *; lia).
  all: try (inversion Hq; subst; simpl in *; lia).
  all: try (inversion Hq; subst; pose proof (Hr _ _ _ _ Hin Hp);
            f_equal; lia).
  all: try (inversion Hp; subst; pose proof (Hr _ _ _ _ Hin Hq);
            f_equal; lia).
  all: try (eapply Ht; eauto; fail).
  all: rewrite Z.min_comm; eapply Ht; eauto.
Qed.

Lemma keyLe_cons (sf : SortField Val) sfs (l r : Row Val) :
  comparatorsInRange (sf :: sfs) ->
  keyLe (sf :: sfs) l r = true ->
  exists lv rv s,
    Eval (Column sf) l = Ok lv /\ Eval (Column sf) r = Ok rv /\
    colSignal sf lv rv = Ok s /\
    (s = -1 \/ (s = 0 /\ keyLe sfs l r = true)).
Proof.
  intros Hr. unfold keyLe. rewrite compareFields_by_signal.
  destruct (Eval (Column sf) l) as [lv|]; [|discriminate].
  destruct (Eval (Column sf) r) as [rv|]; [|discriminate].
  destruct (colSignal sf lv rv) as [s|] eqn:Hs; [|discriminate].
  intros H. exists lv, rv, s.
  split; [reflexivity|]. split; [reflexivity|]. split; [exact Hs|].
  destruct (@colSignal_range sf (sf :: sfs) lv rv s Hr (or_introl eq_refl) Hs)
    as [-> | [-> | ->]]; simpl in H.
  - now left.
  - right. split; [reflexivity | exact H].
  - discriminate.
Qed.

Lemma keyLe_transitive_aux sfs (a b c : Row Val) :
  comparatorsInRange sfs ->
  comparatorsTransitive sfs ->
  keyLe sfs a b = true -> keyLe sfs b c = true -> keyLe sfs a c = true.
Proof.
  induction sfs as [|sf sfs IH]; intros Hr Ht Hab Hbc; [reflexivity|].
  assert (Hr' : comparatorsInRange sfs).
  { intros x ? ? k Hx. apply Hr. now right. }
  assert (Ht' : comparatorsTransitive sfs).
  { intros x ? ? ? ? ? Hx. apply Ht. now right. }
  destruct (@keyLe_cons sf sfs a b Hr Hab) as (u & v & p & Eu & Ev & Hp & Cp).
  destruct (@keyLe_cons sf sfs b c Hr Hbc) as (v' & w & q & Ev' & Ew & Hq & Cq).
  rewrite Ev in Ev'. inversion Ev'; subst v'.
  assert (Hpq : colSignal sf u w = Ok (Z.min p q)).
  { apply (@colSignal_transitive sf (sf :: sfs) u v w p q Hr Ht (or_introl eq_refl) Hp Hq); lia. }
  unfold keyLe. rewrite compareFields_by_signal, Eu, Ew, Hpq.
  destruct Cp as [-> | [-> Kab]], Cq as [-> | [-> Kbc]]; simpl; auto.
Qed.

(** X6: when every column comparator returns -1, 0 or 1 and is transitive,
    so is the order [rowCompare] puts on rows: from a row not after a
    second and the second not after a third, the first is not after the
    third.  Null placement and descending columns included. *)
Theorem rowCompare_transitive sfs (a b c : Row Val) :
  comparatorsInRange sfs ->
  comparatorsTransitive sfs ->
  keyLe sfs a b = true -> keyLe sfs b c = true -> keyLe sfs a c = true.
Proof. apply keyLe_transitive_aux. Qed.

(** X21: comparator laws make [rowCompare] an order.  When every column
    comparator returns -1, 0 or 1, answers swapped operands with the
    opposite number and is transitive, then on any rows that compare
    without error [rowCompare] answers Lesser, Equal or Greater, answers
    the opposite the other way round, and is transitive: the rows are
    ordered by the sort key. *)
Theorem comparator_laws_order_the_rows sfs (U : list (Row Val)) :
  comparatorsInRange sfs ->
  comparatorsAntisymmetric sfs ->
  comparatorsTransitive sfs ->
  (forall a b, In a U -> In b U -> snd (compareFields sfs a b) = None) ->
  keyOrderOn sfs U.
Proof.
  intros Hr Ha Ht Hok. split.
  - intros a b Ia Ib. specialize (Hok a b Ia Ib).
    destruct (compareFields sfs a b) as [c err] eqn:Hc. simpl in Hok. subst err.
    exists c. split; [reflexivity|]. split.
    + now apply compareFields_antisymmetric.
    + destruct (@compareFields_range _ _ _ _ _ Hr Hc) as [[?|[?|[?|?]]] Hnu]; auto.
      now destruct (Hnu eq_refl).
  - intros a b c _ _ _. now apply keyLe_transitive_aux.
Qed.

End CompareProperties.

Section FacadeProperties.

Variable Val : Type.
Variable Schema : Type.
Variable RowEquals : option (Row Val) -> option (Row Val) -> Schema -> res bool.
Local Abbreviation differ := (sortNodeDiffer Val).
Implicit Types nd : differ.
Implicit Types e : frame Val.
Implicit Types fs ts : list (Row Val).

Lemma NextDiffLoop_unfold {W} fuel (qd : QueryDiffer Val Schema W) b (w : W) :
  NextDiffLoop RowEquals (S fuel) qd b w
  = match NextDiffIter RowEquals qd b w with
    | (Some r, w', _) => (Some r, w')
    | (None, w', b') => NextDiffLoop RowEquals fuel qd b' w'
    end.
Proof.
  cbn [NextDiffLoop]. unfold NextDiffIter.
  destruct (wNext (qdFromIter qd) w) as [[[from [[| |m]|]]|m] w1]; try reflexivity.
  all: destruct (wNext (qdToIter qd) w1) as [[[to [[| |m]|]]|m] w2]; try reflexivity.
  all: cbn [andb]; try (destruct b; cbn [andb]; try reflexivity).
  all: destruct (RowEquals from to (sch qd)) as [[|]|]; reflexivity.
Qed.

(** X10: [NextDiff] keeps the retry signal to itself.  Over any two
    iterators, if row equality never returns [errSkip], no result of
    [NextDiff] carries [errSkip] as its error. *)
Theorem NextDiff_never_returns_errSkip {W} (qd : QueryDiffer Val Schema W) :
  (forall a b, RowEquals a b (sch qd) <> Err errSkip) ->
  forall fuel (w w' : W) from to,
    NextDiff RowEquals fuel qd w <> (Some (Return (from, to, Some errSkip)), w').
Proof.
  intros Heq fuel. unfold NextDiff. generalize false.
  induction fuel as [|fuel IH]; intros b w w' from to; [discriminate|].
  rewrite NextDiffLoop_unfold. unfold NextDiffIter.
  destruct (wNext (qdFromIter qd) w) as [[[f [[| |m]|]]|m] w1]; try discriminate.
  all: destruct (wNext (qdToIter qd) w1) as [[[t [[| |m]|]]|m] w2]; try discriminate.
  all: cbn [andb]; try (destruct b; cbn [andb]; try discriminate).
  all: destruct (RowEquals f t (sch qd)) as [[|]|er] eqn:E;
    try discriminate; try apply IH.
  all: intros H; inversion H; subst; exact (Heq _ _ E).
Qed.

Lemma from_compare_fails e f fs t ts c er :
  compareFields (SortFields (frFrom e)) f t = (c, Some er) ->
  nextFromRow (differAt e (f :: fs) (t :: ts) unknown)
    = (Return (None, Some er), differAt e (f :: fs) (t :: ts) c).
Proof.
  intros H. unfold nextFromRow. rewrite startBoth_differAt.
  cbn -[compareFields Z.eqb]. now rewrite H.
Qed.

Lemma to_out_of_order e f fs t ts :
  nextToRow (differAt e (f :: fs) (t :: ts) unknown)
    = (Panics msg_out_of_order, differAt e (f :: fs) (t :: ts) unknown).
Proof. reflexivity. Qed.

(** What one loop iteration does on a started differ in state Unknown. *)
Definition iterationFacts e (sc : Schema) fs ts
    (out : option (diffResult Val) * differ * bool) : Prop :=
  match out with
  | (None, w', _) =>
      exists fs' ts',
        w' = differAt e fs' ts' unknown /\
        (List.length fs' + List.length ts' < List.length fs + List.length ts)%nat /\
        incl fs' fs /\ incl ts' ts
  | (Some (Return (from, to, None)), _, _) =>
      RowEquals from to sc = Ok false /\
      (forall f, from = Some f -> In f fs) /\
      (forall t, to = Some t -> In t ts) /\
      (forall f t, from = Some f -> to = Some t ->
         compareFields (SortFields (frFrom e)) f t = (equal, None))
  | _ => True
  end.

Lemma equality_outcome e (sc : Schema) fs ts fs' ts' from to b :
  (List.length fs' + List.length ts' < List.length fs + List.length ts)%nat ->
  incl fs' fs -> incl ts' ts ->
  (forall f, from = Some f -> In f fs) ->
  (forall t, to = Some t -> In t ts) ->
  (forall f t, from = Some f -> to = Some t ->
     compareFields (SortFields (frFrom e)) f t = (equal, None)) ->
  iterationFacts e sc fs ts
    (match RowEquals from to sc with
     | Err er => (Some (Return (None, None, Some er)), differAt e fs' ts' unknown, b)
     | Ok true => (None, differAt e fs' ts' unknown, b)
     | Ok false => (Some (Return (from, to, None)), differAt e fs' ts' unknown, b)
     end).
Proof.
  intros Hlen Hf Ht Hif Hit Hc.
  destruct (RowEquals from to sc) as [[|]|er] eqn:E; simpl; auto.
  exists fs', ts'. auto.
Qed.

Lemma iteration_facts e (sc : Schema) nd0 b fs ts :
  iterationFacts e sc fs ts
    (NextDiffIter RowEquals (sortQueryDiffer sc nd0) b (differAt e fs ts unknown)).
Proof.
  unfold NextDiffIter, wNext.
  cbn [sortQueryDiffer qdFromIter qdToIter makeFromNode makeToNode iter next sch].
  destruct fs as [|f fs], ts as [|t ts].
  - rewrite from_at_end, to_at_end. exact I.
  - rewrite from_at_end, to_alone. cbn [andb]; rewrite ?andb_false_r.
    apply equality_outcome; simpl; auto using incl_refl, incl_tl; try discriminate.
    intros x Hx. inversion Hx; subst. now left.
  - rewrite from_alone, to_at_end.
    destruct b; cbn [andb]; [exact I|].
    apply equality_outcome; simpl; auto using incl_refl, incl_tl; try discriminate.
    intros x Hx. inversion Hx; subst. now left.
  - destruct (compareFields (SortFields (frFrom e)) f t) as [c [er|]] eqn:Hc.
    + rewrite (from_compare_fails e f fs t ts Hc).
      destruct (compareFields_error_value _ _ _ Hc) as [-> | ->].
      * destruct er; try exact I; rewrite to_out_of_order; exact I.
      * destruct er; try exact I; rewrite to_after_equal; cbn [andb]; rewrite ?andb_false_r;
          (apply equality_outcome; simpl;
           auto using incl_refl, incl_tl; try discriminate; try lia;
           intros x Hx; inversion Hx; subst; now left).
    + rewrite (from_compares e f fs t ts Hc).
      destruct (c =? lesser) eqn:E1.
      { apply Z.eqb_eq in E1. subst c. rewrite to_after_lesser. cbn [andb]; rewrite ?andb_false_r.
        apply equality_outcome; simpl;
          auto using incl_refl, incl_tl; try discriminate.
        intros x Hx. inversion Hx; subst. now left. }
      destruct (c =? equal) eqn:E2.
      { apply Z.eqb_eq in E2. subst c. rewrite to_after_equal. cbn [andb]; rewrite ?andb_false_r.
        apply equality_outcome; simpl;
          auto using incl_refl, incl_tl; try discriminate; try lia.
        - intros x Hx. inversion Hx; subst. now left.
        - intros x Hx. inversion Hx; subst. now left.
        - intros x y Hx Hy. inversion Hx; inversion Hy; subst. exact Hc. }
      destruct (c =? greater) eqn:E3; [|exact I].
      apply Z.eqb_eq in E3. subst c. rewrite to_after_greater. cbn [andb]; rewrite ?andb_false_r.
      apply equality_outcome; simpl;
        auto using incl_refl, incl_tl; try discriminate; try lia.
      intros x Hx. inversion Hx; subst. now left.
Qed.

Lemma NextDiffLoop_returns e (sc : Schema) nd0 : forall fuel fs ts b,
  (List.length fs + List.length ts < fuel)%nat ->
  exists r w,
    NextDiffLoop RowEquals fuel (sortQueryDiffer sc nd0) b (differAt e fs ts unknown)
    = (Some r, w).
Proof.
  induction fuel as [|fuel IH]; intros fs ts b Hn; [lia|].
  rewrite NextDiffLoop_unfold.
  pose proof (iteration_facts e sc nd0 b fs ts) as Hit.
  destruct (NextDiffIter RowEquals (sortQueryDiffer sc nd0) b (differAt e fs ts unknown))
    as [[[r|] w'] b']; [eauto|].
  destruct Hit as (fs' & ts' & -> & Hlen & _). apply IH. lia.
Qed.

Lemma NextDiffLoop_sound e (sc : Schema) nd0 : forall fuel fs ts b from to w,
  NextDiffLoop RowEquals fuel (sortQueryDiffer sc nd0) b (differAt e fs ts unknown)
    = (Some (Return (from, to, None)), w) ->
  RowEquals from to sc = Ok false /\
  (forall f, from = Some f -> In f fs) /\
  (forall t, to = Some t -> In t ts) /\
  (forall f t, from = Some f -> to = Some t ->
     compareFields (SortFields (frFrom e)) f t = (equal, None)).
Proof.
  induction fuel as [|fuel IH]; intros fs ts b from to w H; [discriminate|].
  rewrite NextDiffLoop_unfold in H.
  pose proof (iteration_facts e sc nd0 b fs ts) as Hit.
  destruct (NextDiffIter RowEquals (sortQueryDiffer sc nd0) b (differAt e fs ts unknown))
    as [[[r|] w'] b'].
  - inversion H; subst. exact Hit.
  - destruct Hit as (fs' & ts' & -> & _ & Hf & Ht).
    destruct (IH _ _ _ _ _ _ H) as (H1 & H2 & H3 & H4).
    repeat split; auto.
Qed.

(** X11: a pair that [NextDiff] returns without error is a difference.
    Row equality called the two unequal; a from-row in it was waiting on
    the from-side and a to-row on the to-side; and when both rows are
    present their sort keys compare as Equal. *)
Theorem NextDiff_returns_only_differences nd (sc : Schema) fuel from to w :
  lastCmp nd = unknown ->
  NextDiff RowEquals fuel (sortQueryDiffer sc nd) nd
    = (Some (Return (from, to, None)), w) ->
  RowEquals from to sc = Ok false /\
  (forall f, from = Some f -> In f (iqBuffer (fromIter (startBoth nd)))) /\
  (forall t, to = Some t -> In t (iqBuffer (toIter (startBoth nd)))) /\
  (forall f t, from = Some f -> to = Some t ->
     compareFields (SortFields (fromChild nd)) f t = (equal, None)).
Proof.
  intros Hu H.
  destruct (started_differAt nd Hu eq_refl eq_refl) as [Hst Hfr].
  destruct fuel as [|fuel]; [discriminate|].
  unfold NextDiff in H. rewrite NextDiffLoop_startBoth, Hst in H.
  rewrite <- Hfr. eapply NextDiffLoop_sound. exact H.
Qed.

(** X12: [NextDiff] returns.  On a differ in state Unknown, one loop
    iteration more than there are rows waiting on the two sides is enough
    for the loop to reach a [return] (or a panic), whatever the comparators
    and row equality answer. *)
Theorem NextDiff_returns_within_bound nd (sc : Schema) :
  lastCmp nd = unknown ->
  exists r w,
    NextDiff RowEquals
      (S (List.length (iqBuffer (fromIter (startBoth nd)))
          + List.length (iqBuffer (toIter (startBoth nd)))))
      (sortQueryDiffer sc nd) nd
    = (Some r, w).
Proof.
  intros Hu.
  destruct (started_differAt nd Hu eq_refl eq_refl) as [Hst Hfr].
  unfold NextDiff. rewrite NextDiffLoop_startBoth.
  set (n := S _). rewrite Hst.
  apply NextDiffLoop_returns. subst n. lia.
Qed.

(** X8: a to-row whose key comes before the next from-row's, or that has no
    from-row left to face, is reported as added: when row equality tells it
    from the absent row, [NextDiff] returns it in its first iteration with
    the absent marker on the from-side, pops it and nothing else, and
    leaves the state Unknown. *)
Theorem added_row_reported_with_absent nd (sc : Schema) (t : Row Val) ts :
  lastCmp nd = unknown ->
  iqBuffer (toIter (startBoth nd)) = t :: ts ->
  (forall f, peek (fromIter (startBoth nd)) = Some f ->
     compareFields (SortFields (fromChild nd)) f t = (greater, None)) ->
  RowEquals None (Some t) sc = Ok false ->
  forall fuel, exists nd',
    NextDiff RowEquals (S fuel) (sortQueryDiffer sc nd) nd
      = (Some (Return (None, Some t, None)), nd') /\
    iqBuffer (fromIter nd') = iqBuffer (fromIter (startBoth nd)) /\
    iqBuffer (toIter nd') = ts /\
    lastCmp nd' = unknown.
Proof.
  intros Hu Bt Hgt Hne fuel.
  destruct (started_differAt nd Hu eq_refl Bt) as [Hst Hfr].
  set (e := frameOf (startBoth nd)) in *.
  set (fs := iqBuffer (fromIter (startBoth nd))) in *.
  exists (differAt e fs ts unknown). split; [|repeat split].
  unfold NextDiff. rewrite NextDiffLoop_startBoth, Hst.
  cbn [NextDiffLoop]. unfold wNext.
  cbn [sortQueryDiffer qdFromIter qdToIter makeFromNode makeToNode iter next sch].
  destruct fs as [|f fs'] eqn:Efs.
  - rewrite from_at_end, to_alone. cbn. now rewrite Hne.
  - assert (Hc : compareFields (SortFields (frFrom e)) f t = (greater, None)).
    { rewrite Hfr. apply Hgt. unfold peek. fold fs. now rewrite Efs. }
    rewrite (from_compares e f fs' t ts Hc).
    cbn [Z.eqb equal lesser greater Pos.eqb].
    rewrite to_after_greater. cbn. now rewrite Hne.
Qed.

(** X9: two facing rows whose keys compare as Equal and which row equality
    calls unequal are reported as a changed pair: [NextDiff] returns both
    in its first iteration, pops one row from each side, and leaves the
    state Unknown. *)
Theorem changed_pair_reported nd (sc : Schema) (f t : Row Val) fs ts :
  lastCmp nd = unknown ->
  iqBuffer (fromIter (startBoth nd)) = f :: fs ->
  iqBuffer (toIter (startBoth nd)) = t :: ts ->
  compareFields (SortFields (fromChild nd)) f t = (equal, None) ->
  RowEquals (Some f) (Some t) sc = Ok false ->
  forall fuel, exists nd',
    NextDiff RowEquals (S fuel) (sortQueryDiffer sc nd) nd
      = (Some (Return (Some f, Some t, None)), nd') /\
    iqBuffer (fromIter nd') = fs /\
    iqBuffer (toIter nd') = ts /\
    lastCmp nd' = unknown.
Proof.
  intros Hu Bf Bt Hc Hne fuel.
  destruct (started_differAt nd Hu Bf Bt) as [Hst Hfr].
  set (e := frameOf (startBoth nd)) in *.
  exists (differAt e fs ts unknown). split; [|repeat split].
  unfold NextDiff. rewrite NextDiffLoop_startBoth, Hst.
  cbn [NextDiffLoop]. unfold wNext.
  cbn [sortQueryDiffer qdFromIter qdToIter makeFromNode makeToNode iter next sch].
  rewrite <- Hfr in Hc.
  rewrite (from_compares e f fs t ts Hc).
  cbn [Z.eqb equal lesser greater Pos.eqb].
  rewrite to_after_equal. cbn. now rewrite Hne.
Qed.


(** ** NextDiff as a driver of the two pull operations *)

Definition iterationSafe e (out : option (diffResult Val) * differ * bool) : Prop :=
  match out with
  | (Some (Panics _), _, _) => False
  | (Some (Return (_, _, err)), w', _) =>
      err = None \/ err = Some EOF ->
      exists fs' ts', w' = differAt e fs' ts' unknown
  | (None, _, _) => True
  end.

Lemma equality_outcome_safe e (sc : Schema) fs' ts' from to b :
  iterationSafe e
    (match RowEquals from to sc with
     | Err er => (Some (Return (None, None, Some er)), differAt e fs' ts' unknown, b)
     | Ok true => (None, differAt e fs' ts' unknown, b)
     | Ok false => (Some (Return (from, to, None)), differAt e fs' ts' unknown, b)
     end).
Proof.
  destruct (RowEquals from to sc) as [[|]|er]; simpl; eauto.
Qed.

Lemma iteration_safe e (sc : Schema) nd0 b fs ts :
  comparatorsInRange (SortFields (frFrom e)) ->
  ordinaryCompareErrors (SortFields (frFrom e)) ->
  iterationSafe e
    (NextDiffIter RowEquals (sortQueryDiffer sc nd0) b (differAt e fs ts unknown)).
Proof.
  intros Hr He. unfold NextDiffIter, wNext.
  cbn [sortQueryDiffer qdFromIter qdToIter makeFromNode makeToNode iter next sch].
  destruct fs as [|f fs], ts as [|t ts].
  - rewrite from_at_end, to_at_end. simpl. eauto.
  - rewrite from_at_end, to_alone. cbn [andb]. apply equality_outcome_safe.
  - rewrite from_alone, to_at_end.
    destruct b; cbn [andb]; [simpl; eauto | apply equality_outcome_safe].
  - destruct (compareFields (SortFields (frFrom e)) f t) as [c [er|]] eqn:Hc.
    + rewrite (from_compare_fails e f fs t ts Hc).
      destruct (He _ _ _ _ Hc) as [m ->]. simpl. intros [H | H]; discriminate.
    + rewrite (from_compares e f fs t ts Hc).
      destruct (@compareFields_range _ _ _ _ _ _ Hr Hc) as [Hk Hnu].
      destruct Hk as [-> | [-> | [-> | ->]]]; cbn [Z.eqb equal lesser greater Pos.eqb].
      * rewrite to_after_lesser. cbn [andb]. rewrite ?andb_false_r.
        apply equality_outcome_safe.
      * rewrite to_after_equal. cbn [andb]. rewrite ?andb_false_r.
        apply equality_outcome_safe.
      * rewrite to_after_greater. cbn [andb]. rewrite ?andb_false_r.
        apply equality_outcome_safe.
      * now destruct (Hnu eq_refl).
Qed.

Lemma NextDiffLoop_safe e (sc : Schema) nd0 :
  comparatorsInRange (SortFields (frFrom e)) ->
  ordinaryCompareErrors (SortFields (frFrom e)) ->
  forall fuel fs ts b r w,
    NextDiffLoop RowEquals fuel (sortQueryDiffer sc nd0) b (differAt e fs ts unknown)
      = (Some r, w) ->
    exists from to err,
      r = Return (from, to, err) /\
      (err = None \/ err = Some EOF ->
       exists fs' ts', w = differAt e fs' ts' unknown).
Proof.
  intros Hr He. induction fuel as [|fuel IH]; intros fs ts b r w H; [discriminate|].
  rewrite NextDiffLoop_unfold in H.
  pose proof (iteration_facts e sc nd0 b fs ts) as Hit.
  pose proof (@iteration_safe e sc nd0 b fs ts Hr He) as Hs.
  destruct (NextDiffIter RowEquals (sortQueryDiffer sc nd0) b (differAt e fs ts unknown))
    as [[[r'|] w'] b'].
  - inversion H; subst. destruct r as [[[from to] err]|m]; [|destruct Hs].
    exists from, to, err. auto.
  - destruct Hit as (fs' & ts' & -> & _). eapply IH. exact H.
Qed.

(** X22: [NextDiff] drives the two pull operations in protocol.  On a differ
    in state Unknown, when the column comparators return -1, 0 or 1 and a
    failed key comparison reports an ordinary error, [NextDiff] never ends
    in a panic; and whenever it returns a pair or end-of-stream, both
    queues have started and the comparison state is Unknown again, ready
    for the next call. *)
Theorem NextDiff_keeps_the_protocol nd (sc : Schema) fuel r w :
  lastCmp nd = unknown ->
  comparatorsInRange (SortFields (fromChild nd)) ->
  ordinaryCompareErrors (SortFields (fromChild nd)) ->
  NextDiff RowEquals fuel (sortQueryDiffer sc nd) nd = (Some r, w) ->
  exists from to err,
    r = Return (from, to, err) /\
    (err = None \/ err = Some EOF ->
     lastCmp w = unknown /\ running w /\
     fromChild w = fromChild nd /\ toChild w = toChild nd).
Proof.
  intros Hu Hr He H.
  destruct (started_differAt nd Hu eq_refl eq_refl) as [Hst Hfr].
  destruct fuel as [|fuel]; [discriminate|].
  unfold NextDiff in H. rewrite NextDiffLoop_startBoth, Hst in H.
  rewrite <- Hfr in Hr, He.
  destruct (@NextDiffLoop_safe _ sc nd Hr He _ _ _ _ _ _ H) as (from & to & err & -> & Hw).
  exists from, to, err. split; [reflexivity|]. intros Herr.
  destruct (Hw Herr) as (fs' & ts' & ->).
  repeat split; simpl; auto. unfold startBoth.
  destruct (maybeStart (fromIter nd) (ae nd)) as [fq a1].
  now destruct (maybeStart (toIter nd) a1).
Qed.

(** ** The whole diff *)







End FacadeProperties.

(** * Plan validation, continued *)

Section ValidationProperties.

Variable Val : Type.

Lemma validate_panics (p : Node Val) :
  recursiveValidateQueryPlan p = Panics msg_index
  <-> firstChildChainEndsAtEmpty p.
Proof.
  revert p. fix IH 1. intros [s | [[|c0 rest]|]]; simpl.
  - split; [discriminate | inversion 1].
  - split; [intros _; constructor | reflexivity].
  - destruct (IH c0) as [H1 H2]. split.
    + intros H. constructor. auto.
    + inversion 1; subst. auto.
  - split; [discriminate | inversion 1].
Qed.

Lemma validate_outcomes (p : Node Val) :
  recursiveValidateQueryPlan p = Return None \/
  recursiveValidateQueryPlan p = Return (Some (OtherError msg_no_sort)) \/
  recursiveValidateQueryPlan p = Panics msg_index.
Proof.
  revert p. fix IH 1. intros [s | [[|c0 rest]|]]; simpl; auto.
Qed.

(** X15: validation has three outcomes and no other: it accepts, it returns
    the "does not contain a sort node" error, or it panics on an index out
    of range; and it panics exactly when the first-child chain ends at a
    node whose children are an empty slice that is not nil. *)
Theorem validation_outcomes (p : Node Val) :
  (recursiveValidateQueryPlan p = Return None \/
   recursiveValidateQueryPlan p = Return (Some (OtherError msg_no_sort)) \/
   recursiveValidateQueryPlan p = Panics msg_index) /\
  (recursiveValidateQueryPlan p = Panics msg_index
   <-> firstChildChainEndsAtEmpty p).
Proof. split; [apply validate_outcomes | apply validate_panics]. Qed.

End ValidationProperties.

(** * Tuples *)

Module TupleProperties.

Import Tuples.

Section WithDecoder.

Variable Value : Type.
Variable Dec : Type.
Variable readValue : Dec -> Value * Dec.
Variable skipValue : Dec -> Dec.
Variable Tuple : Type.
Variable decoderSkipToFields : Tuple -> Dec * Z.

Local Abbreviation iterator := (TupleIterator Dec).
Implicit Types itr : iterator.

Lemma Next_step itr :
  wellFormed itr -> pos itr < count itr ->
  exists v d,
    readValue (dec itr) = (v, d) /\
    Next readValue itr
      = ((pos itr, Some v), {| dec := d; count := count itr; pos := pos itr + 1 |}) /\
    wellFormed {| dec := d; count := count itr; pos := pos itr + 1 |} /\
    remaining readValue itr
      = v :: remaining readValue {| dec := d; count := count itr; pos := pos itr + 1 |}.
Proof.
  intros [Hp Hc] Hlt. unfold Next.
  destruct (readValue (dec itr)) as [v d] eqn:E. exists v, d.
  assert (Hu : u64 (pos itr + 1) = pos itr + 1).
  { unfold u64. apply Z.mod_small. lia. }
  rewrite (proj2 (Z.ltb_lt _ _) Hlt), Hu.
  repeat split; simpl; try lia.
  unfold remaining. simpl.
  replace (Z.to_nat (count itr - pos itr))
    with (S (Z.to_nat (count itr - (pos itr + 1)))) by lia.
  simpl. now rewrite E.
Qed.

Lemma Next_at_end itr :
  ~ pos itr < count itr -> Next readValue itr = ((count itr, None), itr).
Proof.
  intros H. unfold Next. now rewrite (proj2 (Z.ltb_ge _ _)) by lia.
Qed.

Lemma nexts_all n : forall itr,
  wellFormed itr -> n = Z.to_nat (count itr - pos itr) ->
  fst (nexts readValue n itr)
    = map (fun iv => (fst iv, Some (snd iv)))
          (indexedFrom (pos itr) (remaining readValue itr)) /\
  pos (snd (nexts readValue n itr)) = count itr /\
  count (snd (nexts readValue n itr)) = count itr.
Proof.
  induction n as [|n IH]; intros itr Hwf Hn.
  - destruct Hwf as [Hp Hc]. unfold remaining. rewrite <- Hn. simpl.
    repeat split. lia.
  - assert (Hlt : pos itr < count itr) by lia.
    destruct (Next_step Hwf Hlt) as (v & d & E & HN & Hwf' & Hrem).
    cbn [nexts]. rewrite HN, Hrem.
    specialize (IH _ Hwf'). simpl in IH.
    destruct IH as (I1 & I2 & I3); [lia|].
    destruct (nexts readValue n _) as [rs itr'']. simpl in *.
    repeat split; auto. now rewrite I1.
Qed.

(** X16: iterating a tuple.  From a well-formed iterator, as many calls of
    [Next] as there are fields left return the positions [pos], [pos+1],
    ... in order, each with the value read there; then the iterator stands
    at [count], [HasMore] is false, and every further [Next] returns
    [(count, nil)] and leaves the iterator as it is. *)
Theorem Next_yields_each_field_once itr :
  wellFormed itr ->
  let n := Z.to_nat (count itr - pos itr) in
  let final := snd (nexts readValue n itr) in
  fst (nexts readValue n itr)
    = map (fun iv => (fst iv, Some (snd iv)))
          (indexedFrom (pos itr) (remaining readValue itr)) /\
  List.length (remaining readValue itr) = n /\
  Pos final = Len itr /\
  HasMore final = false /\
  Next readValue final = ((Len itr, None), final).
Proof.
  intros Hwf n final.
  destruct (nexts_all (n := n) Hwf eq_refl) as (H1 & H2 & H3).
  fold final in H2, H3.
  repeat split; auto.
  - unfold remaining. fold n. clear. generalize (dec itr).
    induction n as [|k IH]; intros d; simpl; auto.
    destruct (readValue d). simpl. now rewrite IH.
  - unfold HasMore. rewrite H2, H3. apply Z.ltb_irrefl.
  - rewrite Next_at_end; [unfold Len; now rewrite H3 | lia].
Qed.

Lemma iterator_at_zero (t : Tuple) :
  0 <= TupleLen decoderSkipToFields t < 18446744073709551616 ->
  wellFormed (Iterator skipValue decoderSkipToFields t) /\
  pos (Iterator skipValue decoderSkipToFields t) = 0 /\
  count (Iterator skipValue decoderSkipToFields t) = TupleLen decoderSkipToFields t.
Proof.
  unfold TupleLen, Iterator, IteratorAt, wellFormed.
  destruct (decoderSkipToFields t) as [d c]. simpl. lia.
Qed.

Section Callback.

Variable S : Type.
Variable cb : S -> Z -> option Value -> bool * S.

Lemma iterFieldsLoop_visits fuel : forall itr s,
  wellFormed itr ->
  (List.length (remaining readValue itr) < fuel)%nat ->
  iterFieldsLoop readValue cb fuel itr s
    = Some (visitUntilStop cb (indexedFrom (pos itr) (remaining readValue itr)) s).
Proof.
  induction fuel as [|fuel IH]; intros itr s Hwf Hn; [lia|].
  cbn [iterFieldsLoop]. unfold HasMore.
  destruct (pos itr <? count itr) eqn:E.
  - apply Z.ltb_lt in E.
    destruct (Next_step Hwf E) as (v & d & _ & HN & Hwf' & Hrem).
    rewrite HN. rewrite Hrem in Hn |- *. simpl.
    destruct (cb s (pos itr) (Some v)) as [[|] s']; [reflexivity|].
    rewrite IH; [reflexivity | exact Hwf' | simpl in Hn; lia].
  - apply Z.ltb_ge in E. destruct Hwf as [Hp Hc].
    unfold remaining. replace (Z.to_nat (count itr - pos itr)) with O by lia.
    reflexivity.
Qed.

(** X17: [IterFields] calls the callback on the fields in order, with
    their positions from 0, and stops after the first call that returns
    true; one loop iteration more than there are fields ends the loop. *)
Theorem IterFields_visits_until_stop (t : Tuple) (s : S) fuel :
  0 <= TupleLen decoderSkipToFields t < 18446744073709551616 ->
  (List.length (fieldsOf readValue skipValue decoderSkipToFields t) < fuel)%nat ->
  IterFields readValue skipValue decoderSkipToFields cb fuel t s
    = Some (visitUntilStop cb
              (indexedFrom 0 (fieldsOf readValue skipValue decoderSkipToFields t)) s).
Proof.
  intros Hlen Hn. unfold IterFields, fieldsOf in *.
  destruct (iterator_at_zero t Hlen) as (Hwf & Hp & _).
  rewrite iterFieldsLoop_visits; auto. now rewrite Hp.
Qed.

End Callback.

Variable valueEquals : Value -> Value -> bool.
Variable valueLess : Value -> Value -> bool.
Variable TupleKind : Z.

Lemma remaining_nil itr :
  wellFormed itr -> ~ pos itr < count itr -> remaining readValue itr = [].
Proof.
  intros [Hp Hc] H. unfold remaining.
  now replace (Z.to_nat (count itr - pos itr)) with O by lia.
Qed.

Lemma lessLoop_lex fuel : forall itr other,
  wellFormed itr -> wellFormed other -> pos itr = pos other ->
  (List.length (remaining readValue itr) < fuel)%nat ->
  lessLoop readValue valueEquals valueLess fuel itr other
    = Some (lexLess valueEquals valueLess
              (remaining readValue itr) (remaining readValue other)).
Proof.
  induction fuel as [|fuel IH]; intros itr other Hwf Hwo Hpos Hn; [lia|].
  cbn [lessLoop]. unfold HasMore, Len.
  destruct (pos itr <? count itr) eqn:E.
  - apply Z.ltb_lt in E.
    destruct (Next_step Hwf E) as (v & d & _ & HN & Hwf' & Hrem).
    destruct (pos other <? count other) eqn:Eo; simpl.
    + apply Z.ltb_lt in Eo.
      destruct (Next_step Hwo Eo) as (v' & d' & _ & HN' & Hwo' & Hrem').
      rewrite HN, HN'. rewrite Hrem in Hn |- *. rewrite Hrem'. simpl.
      destruct (valueEquals v v'); simpl; [|reflexivity].
      apply IH; auto; simpl in *; lia.
    + apply Z.ltb_ge in Eo.
      rewrite Hrem, (remaining_nil Hwo) by lia. reflexivity.
  - apply Z.ltb_ge in E. rewrite (remaining_nil Hwf) by lia.
    destruct (count itr <? count other) eqn:Ec.
    + apply Z.ltb_lt in Ec.
      assert (Eo : pos other < count other) by (destruct Hwf; lia).
      destruct (Next_step Hwo Eo) as (v' & d' & _ & _ & _ & ->). reflexivity.
    + apply Z.ltb_ge in Ec. rewrite (remaining_nil Hwo); [reflexivity|].
      destruct Hwf. lia.
Qed.

Lemma Less_is_lexicographic_aux (t other : Tuple) fuel :
  0 <= TupleLen decoderSkipToFields t < 18446744073709551616 ->
  0 <= TupleLen decoderSkipToFields other < 18446744073709551616 ->
  (List.length (fieldsOf readValue skipValue decoderSkipToFields t) < fuel)%nat ->
  Less readValue skipValue decoderSkipToFields valueEquals valueLess TupleKind
       fuel t (inl other)
    = Some (lexLess valueEquals valueLess
              (fieldsOf readValue skipValue decoderSkipToFields t)
              (fieldsOf readValue skipValue decoderSkipToFields other)) /\
  forall kind,
    Less readValue skipValue decoderSkipToFields valueEquals valueLess TupleKind
         fuel t (inr kind)
    = Some (TupleKind <? kind).
Proof.
  intros Ht Ho Hn. split; [|reflexivity].
  unfold Less, fieldsOf in *.
  destruct (iterator_at_zero t Ht) as (Hwf & Hp & _).
  destruct (iterator_at_zero other Ho) as (Hwo & Hpo & _).
  apply lessLoop_lex; auto. congruence.
Qed.

(** X18: [Less] on two tuples is the lexicographic order of their fields:
    the first pair of fields that are not [Equals] decides by the values'
    own [Less]; if one tuple runs out first, it is the lesser; and against
    a value that is not a tuple the kinds decide.  One loop iteration more
    than the receiver has fields ends the loop. *)
Theorem Less_is_lexicographic (t other : Tuple) fuel :
  0 <= TupleLen decoderSkipToFields t < 18446744073709551616 ->
  0 <= TupleLen decoderSkipToFields other < 18446744073709551616 ->
  (List.length (fieldsOf readValue skipValue decoderSkipToFields t) < fuel)%nat ->
  Less readValue skipValue decoderSkipToFields valueEquals valueLess TupleKind
       fuel t (inl other)
    = Some (lexLess valueEquals valueLess
              (fieldsOf readValue skipValue decoderSkipToFields t)
              (fieldsOf readValue skipValue decoderSkipToFields other)) /\
  forall kind,
    Less readValue skipValue decoderSkipToFields valueEquals valueLess TupleKind
         fuel t (inr kind)
    = Some (TupleKind <? kind).
Proof. intros Ht Ho Hn. now apply Less_is_lexicographic_aux. Qed.

Lemma lexLess_irrefl xs :
  (forall v, valueEquals v v = true) ->
  lexLess valueEquals valueLess xs xs = false.
Proof.
  intros Hrefl. induction xs as [|x xs IH]; simpl; auto. now rewrite Hrefl.
Qed.

Lemma lexLess_prefix xs y ys :
  (forall v, valueEquals v v = true) ->
  lexLess valueEquals valueLess xs (xs ++ y :: ys) = true /\
  lexLess valueEquals valueLess (xs ++ y :: ys) xs = false.
Proof.
  intros Hrefl. induction xs as [|x xs [IH1 IH2]]; simpl; auto.
  now rewrite Hrefl.
Qed.

(** X19: when every value is [Equals] to itself, no tuple is [Less] than
    itself, a tuple whose fields are a proper prefix of another's is [Less]
    than it, and the longer one is not [Less] than the prefix. *)
Theorem Less_irreflexive_and_prefix (t other : Tuple) fuel y ys :
  (forall v, valueEquals v v = true) ->
  0 <= TupleLen decoderSkipToFields t < 18446744073709551616 ->
  0 <= TupleLen decoderSkipToFields other < 18446744073709551616 ->
  fieldsOf readValue skipValue decoderSkipToFields other
    = fieldsOf readValue skipValue decoderSkipToFields t ++ y :: ys ->
  (List.length (fieldsOf readValue skipValue decoderSkipToFields other) < fuel)%nat ->
  Less readValue skipValue decoderSkipToFields valueEquals valueLess TupleKind
       fuel t (inl t) = Some false /\
  Less readValue skipValue decoderSkipToFields valueEquals valueLess TupleKind
       fuel t (inl other) = Some true /\
  Less readValue skipValue decoderSkipToFields valueEquals valueLess TupleKind
       fuel other (inl t) = Some false.
Proof.
  intros Hrefl Ht Ho Hpre Hn.
  assert (Hnt : (List.length (fieldsOf readValue skipValue decoderSkipToFields t)
                 < fuel)%nat).
  { rewrite Hpre, length_app in Hn. lia. }
  rewrite (proj1 (@Less_is_lexicographic_aux t t fuel Ht Ht Hnt)).
  rewrite (proj1 (@Less_is_lexicographic_aux t other fuel Ht Ho Hnt)).
  rewrite (proj1 (@Less_is_lexicographic_aux other t fuel Ho Ht Hn)).
  rewrite Hpre.
  destruct (@lexLess_prefix (fieldsOf readValue skipValue decoderSkipToFields t)
              y ys Hrefl) as [-> ->].
  now rewrite lexLess_irrefl.
Qed.

(** X20: [Get] and [IteratorAt] agree.  For a position inside the tuple,
    [Get] returns the value that the iterator placed there yields first,
    with that position; for a position at or past the field count, [Get]
    fails with the index and the iterator placed there has nothing more. *)
Theorem Get_is_first_of_IteratorAt (t : Tuple) (n : Z) :
  0 <= n ->
  (n < TupleLen decoderSkipToFields t ->
   exists v,
     Get readValue skipValue decoderSkipToFields t n = Got v /\
     fst (Next readValue (IteratorAt skipValue decoderSkipToFields t n))
       = (n, Some v)) /\
  (TupleLen decoderSkipToFields t <= n ->
   Get readValue skipValue decoderSkipToFields t n = IndexOutOfRange Value n /\
   HasMore (IteratorAt skipValue decoderSkipToFields t n) = false /\
   fst (Next readValue (IteratorAt skipValue decoderSkipToFields t n))
     = (TupleLen decoderSkipToFields t, None)).
Proof.
  intros Hn. unfold Get, IteratorAt, TupleLen, Next, HasMore.
  destruct (decoderSkipToFields t) as [d c]. simpl. split; intros H.
  - rewrite (proj2 (Z.ltb_lt _ _) H).
    replace (n >=? c) with false by (rewrite Z.geb_leb; symmetry; apply Z.leb_gt; lia).
    destruct (readValue (skipValues skipValue (Z.to_nat n) d)) as [v d'].
    exists v. split; reflexivity.
  - rewrite (proj2 (Z.ltb_ge _ _) H).
    replace (n >=? c) with true by (rewrite Z.geb_leb; symmetry; apply Z.leb_le; lia).
    repeat split.
Qed.

End WithDecoder.

End TupleProperties.

(** * The further properties on the concrete engine *)

Import Fixtures.

Lemma Int64_in_range a b c :
  Compare Int64 a b = Ok c -> c = -1 \/ c = 0 \/ c = 1.
Proof.
  destruct a, b; simpl; intros H; inversion H.
  destruct (z ?= z0); simpl; auto.
Qed.

Lemma Int64_antisymmetric a b c :
  Compare Int64 a b = Ok c -> Compare Int64 b a = Ok (- c).
Proof.
  destruct a, b; simpl; intros H; inversion H.
  rewrite (Z.compare_antisym z z0). now destruct (z ?= z0).
Qed.

Lemma Int64_transitive x y z p q :
  Compare Int64 x y = Ok p -> Compare Int64 y z = Ok q ->
  p <= 0 -> q <= 0 -> Compare Int64 x z = Ok (Z.min p q).
Proof.
  destruct x as [a|], y as [b|], z as [c|]; simpl; intros Hp Hq Lp Lq;
    inversion Hp; inversion Hq; subst.
  destruct (Z.compare_spec a b), (Z.compare_spec b c), (Z.compare_spec a c);
    simpl in *; try lia; reflexivity.
Qed.

Lemma byFirstAsc_in_range : comparatorsInRange byFirstAsc.
Proof. intros sf a b c [<- | []]. apply Int64_in_range. Qed.

Lemma byFirstAsc_antisymmetric : comparatorsAntisymmetric byFirstAsc.
Proof. intros sf a b c [<- | []]. apply Int64_antisymmetric. Qed.

Lemma byFirstAsc_transitive : comparatorsTransitive byFirstAsc.
Proof. intros sf x y z p q [<- | []]. apply Int64_transitive. Qed.

Lemma RowEquals_never_errSkip a b : RowEquals a b exSchema <> Err errSkip.
Proof.
  unfold RowEquals, exSchema.
  destruct (negb (len b =? len a)%nat || negb (len b =? List.length [Int64; Text])%nat);
    [discriminate|].
  destruct a as [l|], b as [r|]; try discriminate.
  assert (Hend : forall l r : Row value, columnsEqual l r [] <> Err errSkip).
  { intros [|? ?] [|? ?]; discriminate. }
  destruct l as [|[[x|x]|] [|[[y|y]|] l]], r as [|[[x'|x']|] [|[[y'|y']|] r]];
    simpl; try discriminate;
    repeat match goal with
           | |- context [if ?c then _ else _] => destruct c; simpl; try discriminate
           end; auto.
Qed.

Lemma rowCompare_reads_only_the_key_witness :
  compareFields byFirstAsc (row2 2 "b") (row2 3 "c")
  = compareFields byFirstAsc (row2 2 "B") (row2 3 "x").
Proof.
  apply (@rowCompare_reads_only_the_key value byFirstAsc).
  - intros sf [<- | []]. reflexivity.
  - intros sf [<- | []]. reflexivity.
Defined.

Lemma incorrect_value_panic_unreachable_witness :
  (knownCmp (lastCmp (snd (nextFromRow exStart))) /\
   fromChild (snd (nextFromRow exStart)) = fromChild exStart /\
   fst (nextFromRow exStart) <> Panics msg_incorrect_value) /\
  (knownCmp (lastCmp (snd (nextToRow exStart))) /\
   fromChild (snd (nextToRow exStart)) = fromChild exStart /\
   fst (nextToRow exStart) <> Panics msg_incorrect_value).
Proof.
  apply (@incorrect_value_panic_unreachable value exStart).
  - exact byFirstAsc_in_range.
  - unfold knownCmp. auto.
Defined.

Lemma rowCompare_antisymmetric_witness :
  compareFields byFirstAsc (row2 3 "c") (row2 2 "b") = (- lesser, None).
Proof.
  apply (@rowCompare_antisymmetric value byFirstAsc (row2 2 "b") (row2 3 "c")).
  - exact byFirstAsc_in_range.
  - exact byFirstAsc_antisymmetric.
  - reflexivity.
Defined.

Lemma rowCompare_transitive_witness :
  keyLe byFirstAsc (row2 1 "a") (row2 3 "c") = true.
Proof.
  apply (@rowCompare_transitive value byFirstAsc
           (row2 1 "a") (row2 2 "b") (row2 3 "c")).
  - exact byFirstAsc_in_range.
  - exact byFirstAsc_transitive.
  - reflexivity.
  - reflexivity.
Defined.

Lemma comparator_laws_order_the_rows_witness : keyOrderOn byFirstAsc (exFrom ++ exTo).
Proof.
  apply (@comparator_laws_order_the_rows value byFirstAsc (exFrom ++ exTo)).
  - exact byFirstAsc_in_range.
  - exact byFirstAsc_antisymmetric.
  - exact byFirstAsc_transitive.
  - intros a b Ha Hb. simpl in Ha, Hb.
    repeat (destruct Ha as [<- | Ha]; [|]); try contradiction;
      repeat (destruct Hb as [<- | Hb]; [|]); try contradiction; reflexivity.
Defined.

(** A comparator failure leaves the state Equal; a column that does not
    evaluate leaves it Unknown. *)
Lemma failed_comparison_state_witness :
  (nextFromRow (differOf byTextAsInt exFrom exTo)
     = (Return (None, Some (OtherError "value not convertible to int64")),
        set_lastCmp (startBoth (differOf byTextAsInt exFrom exTo)) equal) /\
   (equal = unknown \/ equal = equal) /\
   (equal = equal ->
    fst (nextToRow (snd (nextFromRow (differOf byTextAsInt exFrom exTo))))
      = Return (peek (toIter (startBoth (differOf byTextAsInt exFrom exTo))), None)) /\
   (equal = unknown ->
    fst (nextToRow (snd (nextFromRow (differOf byTextAsInt exFrom exTo))))
      = Panics msg_out_of_order))
  /\
  (nextFromRow (differOf byMissingColumn exFrom exTo)
     = (Return (None, Some (OtherError "field index out of bounds")),
        set_lastCmp (startBoth (differOf byMissingColumn exFrom exTo)) unknown) /\
   (unknown = unknown \/ unknown = equal) /\
   (unknown = equal ->
    fst (nextToRow (snd (nextFromRow (differOf byMissingColumn exFrom exTo))))
      = Return (peek (toIter (startBoth (differOf byMissingColumn exFrom exTo))), None)) /\
   (unknown = unknown ->
    fst (nextToRow (snd (nextFromRow (differOf byMissingColumn exFrom exTo))))
      = Panics msg_out_of_order)).
Proof.
  split.
  - apply (@failed_comparison_state value (differOf byTextAsInt exFrom exTo));
      reflexivity.
  - apply (@failed_comparison_state value (differOf byMissingColumn exFrom exTo));
      reflexivity.
Defined.

Lemma added_row_witness :
  exists nd',
    NextDiff RowEquals 1 (sortQueryDiffer exSchema addedFirst) addedFirst
      = (Some (Return (None, Some (row2 2 "b"), None)), nd') /\
    iqBuffer (fromIter nd') = iqBuffer (fromIter (startBoth addedFirst)) /\
    iqBuffer (toIter nd') = [row2 4 "d"] /\
    lastCmp nd' = unknown.
Proof.
  refine (@added_row_reported_with_absent value Schema RowEquals
            addedFirst exSchema (row2 2 "b") [row2 4 "d"] _ _ _ _ O).
  - reflexivity.
  - reflexivity.
  - intros f H. inversion H. reflexivity.
  - reflexivity.
Defined.

Lemma changed_pair_witness :
  exists nd',
    NextDiff RowEquals 1 (sortQueryDiffer exSchema changedFirst) changedFirst
      = (Some (Return (Some (row2 2 "b"), Some (row2 2 "B"), None)), nd') /\
    iqBuffer (fromIter nd') = [row2 3 "c"] /\
    iqBuffer (toIter nd') = [row2 4 "d"] /\
    lastCmp nd' = unknown.
Proof.
  refine (@changed_pair_reported value Schema RowEquals
            changedFirst exSchema (row2 2 "b") (row2 2 "B")
            [row2 3 "c"] [row2 4 "d"] _ _ _ _ _ O); reflexivity.
Defined.

Lemma NextDiff_never_returns_errSkip_witness :
  NextDiff RowEquals 3 exDiffer exStart
    <> (Some (Return (None, None, Some errSkip)), exStart) /\
  NextDiff RowEquals 1 exDiffer (snd (nextFromRow exStart))
    <> (Some (Return (None, None, Some errSkip)), exStart).
Proof.
  split; apply (@NextDiff_never_returns_errSkip value Schema RowEquals _ exDiffer);
    intros a b; apply RowEquals_never_errSkip.
Defined.

Lemma NextDiff_returns_only_differences_witness :
  RowEquals (Some (row2 2 "b")) (Some (row2 2 "B")) exSchema = Ok false /\
  (forall f, Some (row2 2 "b") = Some f -> In f (iqBuffer (fromIter (startBoth exStart)))) /\
  (forall t, Some (row2 2 "B") = Some t -> In t (iqBuffer (toIter (startBoth exStart)))) /\
  (forall f t, Some (row2 2 "b") = Some f -> Some (row2 2 "B") = Some t ->
     compareFields (SortFields (fromChild exStart)) f t = (equal, None)).
Proof.
  apply (@NextDiff_returns_only_differences value Schema RowEquals
           exStart exSchema 2 (Some (row2 2 "b")) (Some (row2 2 "B"))
           (snd (NextDiff RowEquals 2 (sortQueryDiffer exSchema exStart) exStart)));
    reflexivity.
Defined.

Lemma NextDiff_returns_within_bound_witness :
  exists r w,
    NextDiff RowEquals
      (S (List.length (iqBuffer (fromIter (startBoth exStart)))
          + List.length (iqBuffer (toIter (startBoth exStart)))))
      (sortQueryDiffer exSchema exStart) exStart
    = (Some r, w).
Proof.
  apply (@NextDiff_returns_within_bound value Schema RowEquals exStart exSchema).
  reflexivity.
Defined.


(** The diff of the example of section 8, as the calls collect it. *)
Example section8_diff :
  fst (collectDiffs RowEquals 7 7 exDiffer exStart)
  = Some [ (Some (row2 2 "b"), Some (row2 2 "B"));
           (Some (row2 3 "c"), None);
           (None, Some (row2 4 "d")) ].
Proof. reflexivity. Qed.

Lemma byFirstAsc_ordinary_errors : ordinaryCompareErrors byFirstAsc.
Proof.
  intros l r c e.
  destruct l as [|[[x|x]|] l], r as [|[[y|y]|] r];
    simpl; intros H; try (inversion H; subst; eauto; fail).
  destruct (cmp_of (x ?= y) =? 0); discriminate.
Qed.

Lemma NextDiff_keeps_the_protocol_witness :
  exists from to err,
    Return (Some (row2 2 "b"), Some (row2 2 "B"), None) = Return (from, to, err) /\
    (err = None \/ err = Some EOF ->
     lastCmp (snd (NextDiff RowEquals 2 (sortQueryDiffer exSchema exStart) exStart))
       = unknown /\
     running (snd (NextDiff RowEquals 2 (sortQueryDiffer exSchema exStart) exStart)) /\
     fromChild (snd (NextDiff RowEquals 2 (sortQueryDiffer exSchema exStart) exStart))
       = fromChild exStart /\
     toChild (snd (NextDiff RowEquals 2 (sortQueryDiffer exSchema exStart) exStart))
       = toChild exStart).
Proof.
  destruct (@NextDiff_keeps_the_protocol value Schema RowEquals exStart exSchema 2
              (Return (Some (row2 2 "b"), Some (row2 2 "B"), None))
              (snd (NextDiff RowEquals 2 (sortQueryDiffer exSchema exStart) exStart))
              eq_refl byFirstAsc_in_range byFirstAsc_ordinary_errors eq_refl)
    as (from & to & err & H1 & H2).
  exists from, to, err. split; assumption.
Defined.

Import Tuples.

Ltac tuple_len := unfold TupleLen, intFields, tuple123, tuple12; simpl; lia.

Lemma Next_yields_each_field_once_witness :
  let itr := Iterator skipInt intFields tuple123 in
  let n := Z.to_nat (count itr - pos itr) in
  let final := snd (nexts readInt n itr) in
  fst (nexts readInt n itr)
    = map (fun iv => (fst iv, Some (snd iv)))
          (indexedFrom (pos itr) (remaining readInt itr)) /\
  List.length (remaining readInt itr) = n /\
  Pos final = Len itr /\
  HasMore final = false /\
  Next readInt final = ((Len itr, None), final).
Proof.
  apply (@TupleProperties.Next_yields_each_field_once Z (list Z) readInt
           (Iterator skipInt intFields tuple123)).
  unfold wellFormed. simpl. lia.
Defined.

Example tuple123_positions :
  fst (nexts readInt 4 (Iterator skipInt intFields tuple123))
  = [(0, Some 10); (1, Some 20); (2, Some 30); (3, None)].
Proof. reflexivity. Qed.

Lemma IterFields_visits_until_stop_witness :
  IterFields readInt skipInt intFields sumUntilBig 4 tuple123 0
  = Some (visitUntilStop sumUntilBig
            (indexedFrom 0 (fieldsOf readInt skipInt intFields tuple123)) 0).
Proof.
  apply (@TupleProperties.IterFields_visits_until_stop Z (list Z) readInt skipInt
           (list Z) intFields Z sumUntilBig tuple123 0 4%nat).
  - tuple_len.
  - tuple_len.
Defined.

Example tuple123_sum_stops_at_20 :
  IterFields readInt skipInt intFields sumUntilBig 4 tuple123 0 = Some 30.
Proof. reflexivity. Qed.

Lemma Less_is_lexicographic_witness :
  Less readInt skipInt intFields Z.eqb Z.ltb 7 4 tuple12 (inl tuple123)
    = Some (lexLess Z.eqb Z.ltb
              (fieldsOf readInt skipInt intFields tuple12)
              (fieldsOf readInt skipInt intFields tuple123)) /\
  forall kind,
    Less readInt skipInt intFields Z.eqb Z.ltb 7 4 tuple12 (inr kind)
    = Some (7 <? kind).
Proof.
  apply (@TupleProperties.Less_is_lexicographic Z (list Z) readInt skipInt
           (list Z) intFields Z.eqb Z.ltb 7 tuple12 tuple123 4%nat);
    tuple_len.
Defined.

Lemma Less_irreflexive_and_prefix_witness :
  Less readInt skipInt intFields Z.eqb Z.ltb 7 4 tuple12 (inl tuple12) = Some false /\
  Less readInt skipInt intFields Z.eqb Z.ltb 7 4 tuple12 (inl tuple123) = Some true /\
  Less readInt skipInt intFields Z.eqb Z.ltb 7 4 tuple123 (inl tuple12) = Some false.
Proof.
  apply (@TupleProperties.Less_irreflexive_and_prefix Z (list Z) readInt skipInt
           (list Z) intFields Z.eqb Z.ltb 7 tuple12 tuple123 4%nat 30 []).
  - apply Z.eqb_refl.
  - tuple_len.
  - tuple_len.
  - reflexivity.
  - tuple_len.
Defined.

Lemma Get_is_first_of_IteratorAt_witness :
  (1 < TupleLen intFields tuple123 ->
   exists v,
     Get readInt skipInt intFields tuple123 1 = Got v /\
     fst (Next readInt (IteratorAt skipInt intFields tuple123 1)) = (1, Some v)) /\
  (TupleLen intFields tuple123 <= 1 ->
   Get readInt skipInt intFields tuple123 1 = IndexOutOfRange Z 1 /\
   HasMore (IteratorAt skipInt intFields tuple123 1) = false /\
   fst (Next readInt (IteratorAt skipInt intFields tuple123 1))
     = (TupleLen intFields tuple123, None)).
Proof.
  apply (@TupleProperties.Get_is_first_of_IteratorAt Z (list Z) readInt skipInt
           (list Z) intFields tuple123 1).
  lia.
Defined.

Example tuple123_get :
  Get readInt skipInt intFields tuple123 1 = Got 20 /\
  Get readInt skipInt intFields tuple123 3 = IndexOutOfRange Z 3.
Proof. split; reflexivity. Qed.

(** The plan whose first-child chain ends at an empty list of children
    makes validation panic. *)
Example validation_panics_on_empty_children :
  recursiveValidateQueryPlan emptyChildrenPlan = Panics msg_index.
Proof. reflexivity. Qed.
